(** * Symbolic expressions: a model of [expressions/expressions.py]

    The module defines a small class hierarchy of arithmetic expressions
    ([Expression], [Operator], [Terminal], [Number], [Symbol], [Add], [Sub],
    [Mul], [Div], [Pow]), infix construction through the arithmetic dunder
    methods, precedence-aware rendering ([Operator.__str__]), an iterative
    postorder fold ([postvisitor]) and symbolic differentiation
    ([differentiate], a [functools.singledispatch] function).

    Two views of the same code are given.

    - The _structural_ view: an expression is the tree of its class tags,
      operand tuples and terminal values.  Rendering, infix construction and
      the derivative rules are stated on it.
    - The _object store_ view (module [Store]): every object has an identity,
      operand tuples hold identities, and constructing an object allocates.
      [postvisitor], whose dictionary is keyed by object identity, and the
      sharing behaviour of [differentiate] are stated on it. *)

From Stdlib Require Import ZArith String List Lia DecimalString SpecFloat.
From stdpp Require Import gmap list strings.

Local Open Scope string_scope.
Local Open Scope list_scope.

(** ** Python values, classes and exceptions *)

(** The builtin values that reach the constructors of this module. *)
Inductive value :=
| VNone
| VBool (b : bool)
| VInt (z : Z)
| VFloat (f : spec_float)
| VComplex (re im : spec_float)
| VStr (s : string).

Inductive pytype := Tobject | TNoneType | Tint | Tbool | Tfloat | Tcomplex | Tstr.

Definition pytype_eqb (a b : pytype) : bool :=
  match a, b with
  | Tobject, Tobject | TNoneType, TNoneType | Tint, Tint | Tbool, Tbool
  | Tfloat, Tfloat | Tcomplex, Tcomplex | Tstr, Tstr => true
  | _, _ => false
  end.

Definition type_of (v : value) : pytype :=
  match v with
  | VNone => TNoneType
  | VBool _ => Tbool
  | VInt _ => Tint
  | VFloat _ => Tfloat
  | VComplex _ _ => Tcomplex
  | VStr _ => Tstr
  end.

(** Method resolution order of the builtin types: [bool] derives from [int]. *)
Definition mro (t : pytype) : list pytype :=
  match t with
  | Tobject => [Tobject]
  | Tbool => [Tbool; Tint; Tobject]
  | t => [t; Tobject]
  end.

(** [isinstance(v, (t1, ..., tn))]. *)
Definition isinstance (v : value) (ts : list pytype) : bool :=
  existsb (fun t => existsb (pytype_eqb t) (mro (type_of v))) ts.

Inductive exn :=
| TypeError (msg : string)
| NotImplementedError (msg : string)
| IndexError (msg : string)
| AttributeError (msg : string)
| ValueError (msg : string)
| KeyError.

Inductive result (A : Type) :=
| OK (a : A)
| Raise (e : exn).
Arguments OK {A} a.
Arguments Raise {A} e.

Definition bind {A B} (m : result A) (k : A -> result B) : result B :=
  match m with
  | OK a => k a
  | Raise e => Raise e
  end.

Notation "x <- m ;; k" := (bind m (fun x => k))
  (at level 100, m at next level, right associativity).

Section MapM.
Context {A B : Type}.
Variable f : A -> result B.

(** Left-to-right evaluation of [f] over a tuple; the first exception wins. *)
Fixpoint mapM (l : list A) : result (list B) :=
  match l with
  | [] => OK []
  | a :: l' => b <- f a ;; bs <- mapM l' ;; OK (b :: bs)
  end.
End MapM.

(** ** The classes of the module *)

(** Classes whose instances carry a [value] and an empty operand tuple. *)
Inductive leaf_cls := CTerminal | CNumber | CSymbol.

(** Classes whose instances carry an operand tuple only. *)
Inductive node_cls := CExpression | COperator | CAdd | CSub | CMul | CDiv | CPow.

(** [type(self).__name__] *)
Definition leaf_name (c : leaf_cls) : string :=
  match c with
  | CTerminal => "Terminal"
  | CNumber => "Number"
  | CSymbol => "Symbol"
  end.

Definition node_name (c : node_cls) : string :=
  match c with
  | CExpression => "Expression"
  | COperator => "Operator"
  | CAdd => "Add"
  | CSub => "Sub"
  | CMul => "Mul"
  | CDiv => "Div"
  | CPow => "Pow"
  end.

(** The class attribute [symbol]; [Expression] itself has none. *)
Definition symbol (c : node_cls) : option string :=
  match c with
  | CExpression => None
  | COperator => Some ""
  | CAdd => Some "+"
  | CSub => Some "-"
  | CMul => Some "*"
  | CDiv => Some "/"
  | CPow => Some "^"
  end.

(** Precedences are integers, or [float("inf")] on terminals. *)
Inductive prec := Finite (n : Z) | Infinity.

(** [a < b] on precedences. *)
Definition prec_lt (a b : prec) : bool :=
  match a, b with
  | Finite x, Finite y => Z.ltb x y
  | Finite _, Infinity => true
  | Infinity, _ => false
  end.

(** The class attribute [precedence]; [Expression] itself has none. *)
Definition node_precedence (c : node_cls) : option prec :=
  match c with
  | CExpression => None
  | COperator => Some (Finite 0%Z)
  | CAdd | CSub => Some (Finite 1%Z)
  | CMul | CDiv => Some (Finite 2%Z)
  | CPow => Some (Finite 3%Z)
  end.

(** ** Structural view *)

Local Set Warnings "-register-all".

Inductive expression :=
| Leaf (c : leaf_cls) (value : value)
| Node (c : node_cls) (operands : list expression).

(** [Number.__init__] *)
Definition Number (value : value) : result expression :=
  if negb (isinstance value [Tint; Tfloat])
  then Raise (TypeError "Number value must be an int or float.")
  else OK (Leaf CNumber value).

(** [Symbol.__init__] *)
Definition Symbol (value : value) : result expression :=
  if negb (isinstance value [Tstr])
  then Raise (TypeError "Symbol value must be a string.")
  else OK (Leaf CSymbol value).

(** The operator classes inherit [Expression.__init__(self, *operands)];
    these are the two-operand calls. *)
Definition Add (l r : expression) : expression := Node CAdd [l; r].
Definition Sub (l r : expression) : expression := Node CSub [l; r].
Definition Mul (l r : expression) : expression := Node CMul [l; r].
Definition Div (l r : expression) : expression := Node CDiv [l; r].
Definition Pow (l r : expression) : expression := Node CPow [l; r].

(** *** Infix construction *)

(** An argument of a dunder method: a builtin value or an expression. *)
Inductive pyobj :=
| PVal (v : value)
| PExpr (e : expression).

(** [other if isinstance(other, Expression) else Number(other)] *)
Definition as_expression (other : pyobj) : result expression :=
  match other with
  | PExpr e => OK e
  | PVal v => Number v
  end.

Definition __add__ (self : expression) (other : pyobj) : result expression :=
  o <- as_expression other ;; OK (Add self o).
Definition __sub__ (self : expression) (other : pyobj) : result expression :=
  o <- as_expression other ;; OK (Sub self o).
Definition __mul__ (self : expression) (other : pyobj) : result expression :=
  o <- as_expression other ;; OK (Mul self o).
Definition __truediv__ (self : expression) (other : pyobj) : result expression :=
  o <- as_expression other ;; OK (Div self o).
Definition __pow__ (self : expression) (other : pyobj) : result expression :=
  o <- as_expression other ;; OK (Pow self o).

Definition __radd__ (self : expression) (other : pyobj) : result expression :=
  o <- as_expression other ;; OK (Add o self).
Definition __rsub__ (self : expression) (other : pyobj) : result expression :=
  o <- as_expression other ;; OK (Sub o self).
Definition __rmul__ (self : expression) (other : pyobj) : result expression :=
  o <- as_expression other ;; OK (Mul o self).
Definition __rtruediv__ (self : expression) (other : pyobj) : result expression :=
  o <- as_expression other ;; OK (Div o self).
Definition __rpow__ (self : expression) (other : pyobj) : result expression :=
  o <- as_expression other ;; OK (Pow o self).

(** Python's binary operator protocol, for the operand pairs that involve
    this module: [l op r] calls the method of [l] when [l] is an expression;
    when [l] is a builtin value its own method answers [NotImplemented] for an
    expression on the right (or does not exist), and the reflected method of
    [r] is called with the operands swapped.  Two builtin values never reach
    this module: [None]. *)
Definition binary_op (method reflected : expression -> pyobj -> result expression)
    (l r : pyobj) : option (result expression) :=
  match l, r with
  | PExpr e, _ => Some (method e r)
  | PVal _, PExpr e => Some (reflected e l)
  | PVal _, PVal _ => None
  end.

Definition infix_add := binary_op __add__ __radd__.
Definition infix_sub := binary_op __sub__ __rsub__.
Definition infix_mul := binary_op __mul__ __rmul__.
Definition infix_truediv := binary_op __truediv__ __rtruediv__.
Definition infix_pow := binary_op __pow__ __rpow__.

(** *** Rendering *)

(** [operand.precedence]: [Terminal.precedence] on a leaf, the class
    attribute on an operator, and an [AttributeError] on a direct instance of
    [Expression]. *)
Definition precedence (e : expression) : result prec :=
  match e with
  | Leaf _ _ => OK Infinity
  | Node c _ =>
      match node_precedence c with
      | Some p => OK p
      | None =>
          Raise (AttributeError "'Expression' object has no attribute 'precedence'")
      end
  end.

(** The number of decimal digits of an [int], the sign not counted. *)
Definition int_digits (z : Z) : N :=
  N.of_nat (String.length (NilZero.string_of_uint (N.to_uint (Z.abs_N z)))).

(** [sys.get_int_max_str_digits()], as the interpreter sets it by default. *)
Definition int_max_str_digits : N := 4300%N.

(** [str(z)] of an [int]: the interpreter refuses to convert an [int] of more
    digits than the limit. *)
Definition str_int (z : Z) : result string :=
  if N.ltb int_max_str_digits (int_digits z)
  then Raise (ValueError "Exceeds the limit (4300 digits) for integer string conversion; use sys.set_int_max_str_digits() to increase the limit")
  else OK (NilZero.string_of_int (Z.to_int z)).

(** [sep.join(parts)] *)
Fixpoint join (sep : string) (parts : list string) : string :=
  match parts with
  | [] => ""
  | [p] => p
  | p :: ps => p +:+ sep +:+ join sep ps
  end.

Section Rendering.
(** [str] of the builtin values whose text is produced by the interpreter,
    not by this module: floats and complex numbers. *)
Variable builtin_str : value -> string.

(** [object.__str__] of a direct instance of [Expression]: the text depends
    on the address of the object. *)
Variable object_str : string.

(** [str(self.value)] *)
Definition str_value (v : value) : result string :=
  match v with
  | VNone => OK "None"
  | VBool true => OK "True"
  | VBool false => OK "False"
  | VInt z => str_int z
  | VStr s => OK s
  | VFloat _ | VComplex _ _ => OK (builtin_str v)
  end.

(** The local function [format_operand] of [Operator.__str__], with
    [self.precedence] and the rendering of operands passed in. *)
Definition format_operand (str : expression -> result string) (self_precedence : prec)
    (operand : expression) : result string :=
  p <- precedence operand ;;
  if prec_lt p self_precedence
  then s <- str operand ;; OK ("(" +:+ s +:+ ")")
  else str operand.

(** [str(e)]: [Terminal.__str__] on leaves and [Operator.__str__] on
    [Operator] and its subclasses, which have a [symbol] and a [precedence];
    a direct instance of [Expression] has neither and inherits
    [object.__str__]. *)
Fixpoint str (e : expression) : result string :=
  match e with
  | Leaf _ v => str_value v
  | Node c operands =>
      match symbol c, node_precedence c with
      | Some sym, Some p =>
          parts <- mapM (format_operand str p) operands ;;
          OK (join (" " +:+ sym +:+ " ") parts)
      | _, _ => OK object_str
      end
  end.
End Rendering.

(** *** Differentiation *)

(** [expr.value == var] for a string [var]. *)
Definition value_eq_str (v : value) (var : string) : bool :=
  match v with
  | VStr s => String.eqb s var
  | _ => false
  end.

(** [operands[i]] on a tuple. *)
Definition getitem {A} (operands : list A) (i : nat) : result A :=
  match nth_error operands i with
  | Some o => OK o
  | None => Raise (IndexError "tuple index out of range")
  end.

(** The part shared by the rules of [Add], [Mul], [Sub] and [Div]:
    [left_diff = differentiate(expr.operands[0], ...)] then
    [right_diff = differentiate(expr.operands[1], ...)]; [k] is what the rule
    does with the operands and their derivatives. *)
Definition with_derivatives (d : expression -> result expression) (operands : list expression)
    (k : expression -> expression -> expression -> expression -> result expression) : result expression :=
  match operands with
  | [] => Raise (IndexError "tuple index out of range")
  | left_ :: rest =>
      left_diff <- d left_ ;;
      match rest with
      | [] => Raise (IndexError "tuple index out of range")
      | right_ :: _ =>
          right_diff <- d right_ ;;
          k left_ right_ left_diff right_diff
      end
  end.

(** [differentiate(expr, var=var)]: the [singledispatch] default and the
    seven registered implementations, selected by the class of [expr]. *)
Fixpoint differentiate (expr : expression) (var : string) : result expression :=
  match expr with
  | Leaf CNumber _ => Number (VInt 0%Z)
  | Leaf CSymbol value =>
      if value_eq_str value var then Number (VInt 1%Z) else Number (VInt 0%Z)
  | Node CAdd operands =>
      with_derivatives (fun e => differentiate e var) operands
        (fun _ _ left_diff right_diff => OK (Add left_diff right_diff))
  | Node CMul operands =>
      with_derivatives (fun e => differentiate e var) operands
        (fun left_ right_ left_diff right_diff =>
           OK (Add (Mul left_diff right_) (Mul left_ right_diff)))
  | Node CSub operands =>
      with_derivatives (fun e => differentiate e var) operands
        (fun _ _ left_diff right_diff => OK (Sub left_diff right_diff))
  | Node CDiv operands =>
      with_derivatives (fun e => differentiate e var) operands
        (fun left_ right_ left_diff right_diff =>
           two <- Number (VInt 2%Z) ;;
           OK (Div (Sub (Mul right_ left_diff) (Mul left_ right_diff))
                   (Pow right_ two)))
  | Node CPow operands =>
      exponent <- getitem operands 1 ;;
      base <- getitem operands 0 ;;
      exponent' <- getitem operands 1 ;;
      one <- Number (VInt 1%Z) ;;
      OK (Mul exponent (Pow base (Sub exponent' one)))
  | Leaf CTerminal _ =>
      Raise (NotImplementedError ("Cannot differentiate " +:+ leaf_name CTerminal))
  | Node c _ =>
      Raise (NotImplementedError ("Cannot differentiate " +:+ node_name c))
  end.


(** ** Object store view *)

Module Store.

(** An object of the module as it sits in memory: its class, and either its
    [value] or its tuple of operands, which holds object identities. *)
Inductive object :=
| OLeaf (c : leaf_cls) (value : value)
| ONode (c : node_cls) (operands : list nat).

(** [e.operands] *)
Definition operands (ob : object) : list nat :=
  match ob with
  | OLeaf _ _ => []
  | ONode _ ops => ops
  end.

(** The store lists the objects in the order of their construction; the
    identity of an object is its position.  Objects are never updated. *)
Abbreviation store := (list object).

(** What a computation of the model yields: a value, a Python exception,
    or no answer ([None]) when the model runs out of fuel or follows an
    identity that is not in the store, which no Python program can hold. *)
Definition outcome (A : Type) : Type := option (result A).

Definition obind {A B} (m : outcome A) (k : A -> outcome B) : outcome B :=
  match m with
  | Some (OK a) => k a
  | Some (Raise e) => Some (Raise e)
  | None => None
  end.

(** Computations that read the store and allocate in it. *)
Definition state (A : Type) : Type := store -> outcome (A * store).

Definition ret {A} (a : A) : state A := fun h => Some (OK (a, h)).
Definition raise {A} (e : exn) : state A := fun _ => Some (Raise e).
Definition stuck {A} : state A := fun _ => None.
Definition lift {A} (m : result A) : state A :=
  fun h => match m with OK a => Some (OK (a, h)) | Raise e => Some (Raise e) end.

Definition sbind {A B} (m : state A) (k : A -> state B) : state B :=
  fun h => obind (m h) (fun '(a, h') => k a h').

Notation "x <~ m ;; k" := (sbind m (fun x => k))
  (at level 100, m at next level, right associativity).

(** Constructing an object gives it the next identity. *)
Definition new (ob : object) : state nat :=
  fun h => Some (OK (List.length h, h ++ [ob])).

(** Following an identity. *)
Definition deref (e : nat) : state object :=
  fun h => match h !! e with
           | Some ob => Some (OK (ob, h))
           | None => None
           end.

Definition Number (value : value) : state nat :=
  if negb (isinstance value [Tint; Tfloat])
  then raise (TypeError "Number value must be an int or float.")
  else new (OLeaf CNumber value).

Definition Symbol (value : value) : state nat :=
  if negb (isinstance value [Tstr])
  then raise (TypeError "Symbol value must be a string.")
  else new (OLeaf CSymbol value).

Definition Add (l r : nat) : state nat := new (ONode CAdd [l; r]).
Definition Sub (l r : nat) : state nat := new (ONode CSub [l; r]).
Definition Mul (l r : nat) : state nat := new (ONode CMul [l; r]).
Definition Div (l r : nat) : state nat := new (ONode CDiv [l; r]).
Definition Pow (l r : nat) : state nat := new (ONode CPow [l; r]).

(** [differentiate(expr, var=var)] on identities.  The recursion follows
    operand identities, so it is bounded by [fuel]. *)
Fixpoint differentiate (fuel : nat) (expr : nat) (var : string) : state nat :=
  match fuel with
  | O => stuck
  | S fuel =>
      ob <~ deref expr ;;
      match ob with
      | OLeaf CNumber _ => Number (VInt 0%Z)
      | OLeaf CSymbol value =>
          if value_eq_str value var then Number (VInt 1%Z) else Number (VInt 0%Z)
      | ONode CAdd operands =>
          o0 <~ lift (getitem operands 0) ;;
          left_diff <~ differentiate fuel o0 var ;;
          o1 <~ lift (getitem operands 1) ;;
          right_diff <~ differentiate fuel o1 var ;;
          Add left_diff right_diff
      | ONode CMul operands =>
          o0 <~ lift (getitem operands 0) ;;
          left_diff <~ differentiate fuel o0 var ;;
          o1 <~ lift (getitem operands 1) ;;
          right_diff <~ differentiate fuel o1 var ;;
          left_ <~ lift (getitem operands 0) ;;
          right_ <~ lift (getitem operands 1) ;;
          a <~ Mul left_diff right_ ;;
          b <~ Mul left_ right_diff ;;
          Add a b
      | ONode CSub operands =>
          o0 <~ lift (getitem operands 0) ;;
          left_diff <~ differentiate fuel o0 var ;;
          o1 <~ lift (getitem operands 1) ;;
          right_diff <~ differentiate fuel o1 var ;;
          Sub left_diff right_diff
      | ONode CDiv operands =>
          o0 <~ lift (getitem operands 0) ;;
          left_diff <~ differentiate fuel o0 var ;;
          o1 <~ lift (getitem operands 1) ;;
          right_diff <~ differentiate fuel o1 var ;;
          left_ <~ lift (getitem operands 0) ;;
          right_ <~ lift (getitem operands 1) ;;
          a <~ Mul right_ left_diff ;;
          b <~ Mul left_ right_diff ;;
          num <~ Sub a b ;;
          two <~ Number (VInt 2%Z) ;;
          den <~ Pow right_ two ;;
          Div num den
      | ONode CPow operands =>
          exponent <~ lift (getitem operands 1) ;;
          base <~ lift (getitem operands 0) ;;
          exponent' <~ lift (getitem operands 1) ;;
          one <~ Number (VInt 1%Z) ;;
          s <~ Sub exponent' one ;;
          p <~ Pow base s ;;
          Mul exponent p
      | OLeaf CTerminal _ =>
          raise (NotImplementedError ("Cannot differentiate " +:+ leaf_name CTerminal))
      | ONode c _ =>
          raise (NotImplementedError ("Cannot differentiate " +:+ node_name c))
      end
  end.

(** Operands are constructed before the object that holds them: every
    operand identity is smaller than the identity of its holder. *)
Fixpoint bottom_up_from (i : nat) (h : store) : bool :=
  match h with
  | [] => true
  | ob :: h' => forallb (fun o => Nat.ltb o i) (operands ob) && bottom_up_from (S i) h'
  end.

Definition bottom_up (h : store) : bool := bottom_up_from 0 h.

(** [Some] of all the elements when none is missing. *)
Fixpoint all_some {A} (l : list (option A)) : option (list A) :=
  match l with
  | [] => Some []
  | Some a :: l' => option_map (cons a) (all_some l')
  | None :: _ => None
  end.

(** The tree an identity stands for, sharing unfolded. *)
Fixpoint tree_of (fuel : nat) (h : store) (e : nat) : option expression :=
  match fuel with
  | O => None
  | S fuel =>
      match h !! e with
      | None => None
      | Some (OLeaf c v) => Some (Leaf c v)
      | Some (ONode c ops) =>
          option_map (Node c) (all_some (map (tree_of fuel h) ops))
      end
  end.

(** *** The postorder visitor *)

Section Postvisitor.
Context {R W : Type}.

(** The store the expression lives in. *)
Variable h : store.

(** [fn(e, *results, **kwargs)]: it receives the object and the results of
    its operands, and may read and write state of its own, [W]. *)
Variable fn : nat -> list R -> W -> R * W.

(** The local variables of [postvisitor] that live across iterations.
    The head of [stack] is the end of the Python list, where [append] and
    [pop] work.  [visited] is a [dict] whose keys are objects of classes
    that define neither [__eq__] nor [__hash__]: it is keyed by identity. *)
Record frame := Frame {
  stack : list nat;
  visited : gmap nat R;
  world : W
}.

(** [o not in visited] *)
Definition not_in (visited : gmap nat R) (o : nat) : bool :=
  match visited !! o with
  | None => true
  | Some _ => false
  end.

(** [visited[o]] *)
Definition lookup_visited (visited : gmap nat R) (o : nat) : result R :=
  match visited !! o with
  | Some r => OK r
  | None => Raise KeyError
  end.

(** One pass through the body of the [while] loop, on a non-empty stack. *)
Definition iteration (st : frame) : outcome frame :=
  match stack st with
  | [] => Some (OK st)
  | e :: stack' =>
      match h !! e with
      | None => None
      | Some ob =>
          let unvisited_children :=
            List.filter (not_in (visited st)) (operands ob) in
          match unvisited_children with
          | _ :: _ =>
              Some (OK (Frame (rev unvisited_children ++ e :: stack')
                              (visited st) (world st)))
          | [] =>
              match mapM (lookup_visited (visited st)) (operands ob) with
              | Raise x => Some (Raise x)
              | OK results =>
                  let '(r, w) := fn e results (world st) in
                  Some (OK (Frame stack' (<[e := r]> (visited st)) w))
              end
          end
      end
  end.

(** [while stack: ...] *)
Fixpoint while_stack (fuel : nat) (st : frame) : outcome frame :=
  match stack st with
  | [] => Some (OK st)
  | _ :: _ =>
      match fuel with
      | O => None
      | S fuel => obind (iteration st) (while_stack fuel)
      end
  end.

Definition initial (expr : nat) (w : W) : frame := Frame [expr] ∅ w.

(** [postvisitor(expr, fn, **kwargs)], together with the final state of
    [fn]. *)
Definition postvisitor (fuel : nat) (expr : nat) (w : W) : outcome (R * W) :=
  obind (while_stack fuel (initial expr w))
    (fun st => match lookup_visited (visited st) expr with
               | OK r => Some (OK (r, world st))
               | Raise x => Some (Raise x)
               end).
End Postvisitor.

End Store.

(** ** Vocabulary of the specification *)

(** A numeric value: an [int] (with [bool], which Python derives from [int])
    or a [float]. *)
Definition numeric (v : value) : bool :=
  match v with
  | VBool _ | VInt _ | VFloat _ => true
  | VNone | VComplex _ _ | VStr _ => false
  end.

(** A string value. *)
Definition textual (v : value) : bool :=
  match v with
  | VStr _ => true
  | _ => false
  end.

(** [type(e).__name__] *)
Definition class_name (e : expression) : string :=
  match e with
  | Leaf c _ => leaf_name c
  | Node c _ => node_name c
  end.

(** The variants of the rule table of [differentiate]. *)
Definition registered (e : expression) : bool :=
  match e with
  | Leaf CTerminal _ | Node CExpression _ | Node COperator _ => false
  | _ => true
  end.

(** A well-formed expression tree: a [Number] holds a numeric value, a
    [Symbol] holds a string, and every other node is one of the five operators
    with exactly two well-formed operands. *)
Fixpoint well_formed (e : expression) : bool :=
  match e with
  | Leaf CNumber v => numeric v
  | Leaf CSymbol v => textual v
  | Leaf CTerminal _ => false
  | Node (CAdd | CSub | CMul | CDiv | CPow) [l; r] => well_formed l && well_formed r
  | Node _ _ => false
  end.

(** Every node of the five operator classes has exactly two operands; the
    other classes are unconstrained. *)
Fixpoint binary (e : expression) : bool :=
  match e with
  | Leaf _ _ => true
  | Node (CAdd | CSub | CMul | CDiv | CPow) operands =>
      match operands with
      | [l; r] => binary l && binary r
      | _ => false
      end
  | Node _ _ => true
  end.

(** The class name of the first node without a rule that the recursion of
    [differentiate] meets: the node itself, else what is met in the left
    operand, else in the right operand, of [Add], [Sub], [Mul] and [Div]; the
    operands of [Pow] are not entered. *)
Fixpoint first_unhandled (e : expression) : option string :=
  match e with
  | Leaf CTerminal _ => Some (leaf_name CTerminal)
  | Leaf _ _ => None
  | Node CExpression _ => Some (node_name CExpression)
  | Node COperator _ => Some (node_name COperator)
  | Node CPow _ => None
  | Node _ operands =>
      (fix first (l : list expression) : option string :=
         match l with
         | [] => None
         | o :: l' =>
             match first_unhandled o with
             | Some n => Some n
             | None => first l'
             end
         end) operands
  end.

(** The rule table of the specification, read as a function on trees.
    Variants outside the table are left as they are. *)
Fixpoint derivative (var : string) (e : expression) : expression :=
  match e with
  | Leaf CNumber _ => Leaf CNumber (VInt 0%Z)
  | Leaf CSymbol v => Leaf CNumber (VInt (if value_eq_str v var then 1%Z else 0%Z))
  | Node CAdd [l; r] => Add (derivative var l) (derivative var r)
  | Node CSub [l; r] => Sub (derivative var l) (derivative var r)
  | Node CMul [l; r] => Add (Mul (derivative var l) r) (Mul l (derivative var r))
  | Node CDiv [l; r] =>
      Div (Sub (Mul r (derivative var l)) (Mul l (derivative var r)))
          (Pow r (Leaf CNumber (VInt 2%Z)))
  | Node CPow [base; exponent] =>
      Mul exponent (Pow base (Sub exponent (Leaf CNumber (VInt 1%Z))))
  | _ => e
  end.

(** Text of an operand inside an operator: parenthesised or not. *)
Definition parenthesised (b : bool) (s : string) : string :=
  if b then "(" +:+ s +:+ ")" else s.

(** *** Vocabulary for the object store *)

(** [o] is one of the operands of [e]. *)
Definition operand_of (h : Store.store) (o e : nat) : Prop :=
  exists ob, h !! e = Some ob /\ In o (Store.operands ob).

(** [d] is reached from [e] through one or more operand tuples. *)
Inductive descendant (h : Store.store) : nat -> nat -> Prop :=
| descendant_operand e o : operand_of h o e -> descendant h e o
| descendant_below e o d : operand_of h o e -> descendant h o d -> descendant h e d.

(** The objects of the expression rooted at [root]. *)
Definition node_of_dag (h : Store.store) (root e : nat) : Prop :=
  e = root \/ descendant h root e.

(** A record of one invocation of [fn]: the object, the results passed for
    its operands, and the result returned. *)
Definition call (R : Type) : Type := nat * list R * R.

(** [fn] made to keep a journal of its invocations, oldest first. *)
Definition traced {R W} (fn : nat -> list R -> W -> R * W)
    (e : nat) (results : list R) (wl : W * list (call R)) : R * (W * list (call R)) :=
  let '(r, w) := fn e results (fst wl) in
  (r, (w, snd wl ++ [(e, results, r)])).

(** The object a journal entry is about, what it was passed, and the result
    it records. *)
Definition callee {R} (c : call R) : nat := fst (fst c).
Definition passed {R} (c : call R) : list R := snd (fst c).
Definition returned {R} (c : call R) : R := snd c.

(** The dictionary a journal amounts to: for each object, the result of the
    latest invocation on it. *)
Definition memo {R} (journal : list (call R)) : gmap nat R :=
  fold_left (fun m c => <[callee c := returned c]> m) journal ∅.

(** Every invocation on an object comes after an invocation on each object
    below it. *)
Definition postorder {R} (h : Store.store) (journal : list (call R)) : Prop :=
  forall i c d,
    journal !! i = Some c -> descendant h (callee c) d ->
    exists j c', (j < i)%nat /\ journal !! j = Some c' /\ callee c' = d.

(** Every invocation received, in operand order, the latest results recorded
    for the operands of its object. *)
Definition fed_by_operands {R} (h : Store.store) (journal : list (call R)) : Prop :=
  forall i c,
    journal !! i = Some c ->
    exists ob, h !! callee c = Some ob /\
               Forall2 (fun o x => memo (take i journal) !! o = Some x)
                       (Store.operands ob) (passed c).

(** A bound on the number of iterations spent on [e]: two for the object
    itself, and the bounds of its operands. *)
Fixpoint cost (fuel : nat) (h : Store.store) (e : nat) : nat :=
  match fuel with
  | O => 1
  | S fuel =>
      match h !! e with
      | None => 1
      | Some ob => 2 + list_sum (map (cost fuel h) (Store.operands ob))
      end
  end.

Definition bound (h : Store.store) (e : nat) : nat := cost (S e) h e.

(** The measure that decreases at every iteration of the loop.  An entry of
    the stack counts for one when each of its operands is visited or waits
    above it on the stack, and for its bound otherwise. *)
Definition ready (h : Store.store) (K : gset nat) (e : nat) : bool :=
  match h !! e with
  | Some ob => forallb (fun o => bool_decide (o ∈ K)) (Store.operands ob)
  | None => true
  end.

Fixpoint weight (h : Store.store) (K : gset nat) (stk : list nat) : nat :=
  match stk with
  | [] => 0
  | e :: rest =>
      (if ready h K e then 1 else bound h e) + weight h (K ∪ {[e]}) rest
  end.

(** One pass through the loop body, as a relation between frames: either
    the popped object goes back on the stack under its unvisited operands, or
    [fn] is invoked on it and the result is recorded. *)
Inductive loop_step {R W} (h : Store.store) (fn : nat -> list R -> W -> R * W)
  : @Store.frame R W -> @Store.frame R W -> Prop :=
| step_push e stk ob v w :
    h !! e = Some ob ->
    List.filter (Store.not_in v) (Store.operands ob) <> [] ->
    loop_step h fn
      (Store.Frame (e :: stk) v w)
      (Store.Frame (rev (List.filter (Store.not_in v) (Store.operands ob)) ++ e :: stk) v w)
| step_visit e stk ob v w results r w' :
    h !! e = Some ob ->
    List.filter (Store.not_in v) (Store.operands ob) = [] ->
    Forall2 (fun o x => v !! o = Some x) (Store.operands ob) results ->
    fn e results w = (r, w') ->
    loop_step h fn
      (Store.Frame (e :: stk) v w)
      (Store.Frame stk (<[e := r]> v) w').

(** The identity [e] stands for the tree [t] in the store [h]. *)
Definition denotes (h : Store.store) (e : nat) (t : expression) : Prop :=
  exists n, Store.tree_of n h e = Some t.

(** [h'] is [h] with objects constructed after it: every object of [h] is
    where it was, as it was. *)
Definition extends (h' h : Store.store) : Prop :=
  exists k, h' = h ++ k.

(** Every identity on the stack is in the store. *)
Definition in_store {R W} (h : Store.store) (st : @Store.frame R W) : Prop :=
  Forall (fun e => (e < List.length h)%nat) (Store.stack st).

(** What every frame of a run from [root] satisfies: the stack and the
    dictionary hold objects of the expression only; the operands of a visited
    object are visited; and [root] sits at the bottom of the stack, under
    objects of smaller identity, until it is visited, which empties the
    stack. *)
Definition dag_invariant {R W} (h : Store.store) (root : nat)
    (st : @Store.frame R W) : Prop :=
  (forall e, In e (Store.stack st) -> node_of_dag h root e) /\
  (forall e, is_Some (Store.visited st !! e) -> node_of_dag h root e) /\
  (forall e o, is_Some (Store.visited st !! e) -> operand_of h o e ->
               is_Some (Store.visited st !! o)) /\
  ((exists stk, Store.stack st = stk ++ [root] /\
                Forall (fun e => (e < root)%nat) stk /\
                Store.visited st !! root = None) \/
   (Store.stack st = [] /\ is_Some (Store.visited st !! root))).

(** What every frame of a traced run satisfies in addition: the dictionary
    is the one the journal amounts to; an invocation follows invocations on
    the operands of its object and received their latest results; and when
    the stack is empty the journal ends with the invocation on [root]. *)
Definition journal_invariant {R W} (h : Store.store)
    (fn : nat -> list R -> W -> R * W) (root : nat)
    (st : @Store.frame R (W * list (call R))) : Prop :=
  let journal := snd (Store.world st) in
  Store.visited st = memo journal /\
  (forall i c o,
      journal !! i = Some c -> operand_of h o (callee c) ->
      exists j c', (j < i)%nat /\ journal !! j = Some c' /\ callee c' = o) /\
  fed_by_operands h journal /\
  (Store.stack st = [] ->
   exists before args r w0,
     journal = before ++ [(root, args, r)] /\
     fn root args w0 = (r, fst (Store.world st)) /\
     Store.visited st !! root = Some r).

(** A function without state of its own, as an [fn]. *)
Definition stateless {R} (f : nat -> list R -> R) : nat -> list R -> unit -> R * unit :=
  fun e results w => (f e results, w).

(** The recursive fold that [postvisitor] computes for a stateless [f]. *)
Fixpoint fold {R} (f : nat -> list R -> R) (fuel : nat) (h : Store.store) (e : nat)
  : option R :=
  match fuel with
  | O => None
  | S fuel =>
      match h !! e with
      | None => None
      | Some ob =>
          match mapM (fun o => match fold f fuel h o with
                               | Some r => OK r
                               | None => Raise KeyError
                               end) (Store.operands ob) with
          | OK results => Some (f e results)
          | Raise _ => None
          end
      end
  end.

(** Forgetting the journal of a frame of the traced run. *)
Definition erase {R W} (st : Store.frame (R := R) (W := W * list (call R)))
  : Store.frame (R := R) (W := W) :=
  Store.Frame (Store.stack st) (Store.visited st) (fst (Store.world st)).

(** *** Further vocabulary *)

(** The operand has a [precedence] attribute: it is not a direct instance of
    [Expression]. *)
Definition has_precedence (e : expression) : bool :=
  match e with
  | Node CExpression _ => false
  | _ => true
  end.

(** The value has a text: it is not an [int] of more digits than the
    interpreter converts. *)
Definition value_renders (v : value) : bool :=
  match v with
  | VInt z => negb (N.ltb int_max_str_digits (int_digits z))
  | _ => true
  end.

(** No operator met while rendering holds a direct instance of [Expression]
    among its operands, and every terminal met holds a value that has a
    text. *)
Fixpoint renderable (e : expression) : bool :=
  match e with
  | Leaf _ v => value_renders v
  | Node c operands =>
      match node_precedence c with
      | None => true
      | Some _ => forallb (fun o => has_precedence o && renderable o) operands
      end
  end.

(** The two exceptions of rendering: the missing [precedence] of a direct
    instance of [Expression], and the interpreter's refusal to convert an
    [int] of too many digits. *)
Definition rendering_error (x : exn) : Prop :=
  x = AttributeError "'Expression' object has no attribute 'precedence'" \/
  x = ValueError "Exceeds the limit (4300 digits) for integer string conversion; use sys.set_int_max_str_digits() to increase the limit".

(** The five operator classes with a rule in [differentiate]. *)
Definition rule_operator (c : node_cls) : bool :=
  match c with
  | CAdd | CSub | CMul | CDiv | CPow => true
  | CExpression | COperator => false
  end.

(** The four whose rule differentiates both operands. *)
Definition recursive_rule (c : node_cls) : bool :=
  match c with
  | CAdd | CSub | CMul | CDiv => true
  | CExpression | COperator | CPow => false
  end.

(** The five infix forms, each with the class it builds. *)
Definition infix_forms : list ((pyobj -> pyobj -> option (result expression)) * node_cls) :=
  [(infix_add, CAdd); (infix_sub, CSub); (infix_mul, CMul);
   (infix_truediv, CDiv); (infix_pow, CPow)].

(** An operand of an infix form that can be used: a numeric literal or a
    well-formed expression. *)
Definition usable (a : pyobj) : bool :=
  match a with
  | PVal v => numeric v
  | PExpr e => well_formed e
  end.

Definition is_expression (a : pyobj) : bool :=
  match a with
  | PVal _ => false
  | PExpr _ => true
  end.

(** The objects of the expression rooted at [e] in postorder, the operands
    of every object taken from the last to the first; an object used in
    several places is listed once for each. *)
Fixpoint postorder_rl (fuel : nat) (h : Store.store) (e : nat) : list nat :=
  match fuel with
  | O => []
  | S fuel =>
      match h !! e with
      | None => []
      | Some ob => concat (map (postorder_rl fuel h) (rev (Store.operands ob))) ++ [e]
      end
  end.

(** What running the traced loop does to the objects [cs] on top of the
    stack, when none of the objects that [P] lists for them is visited yet
    and none is listed twice: it pops them all, visits what [P] lists, in
    that order, and nothing else. *)
Definition runs_through {R W} (h : Store.store) (fn : nat -> list R -> W -> R * W)
    (P : nat -> list nat) (cs : list nat) : Prop :=
  forall stk (v : gmap nat R) w j,
    NoDup (concat (map P cs)) ->
    (forall d, In d (concat (map P cs)) -> v !! d = None) ->
    exists v' w' j',
      rtc (loop_step h (traced fn))
          (Store.Frame (cs ++ stk) v (w, j))
          (Store.Frame stk v' (w', j ++ j')) /\
      map callee j' = concat (map P cs) /\
      (forall d, is_Some (v' !! d) <-> is_Some (v !! d) \/ In d (concat (map P cs))).

(** * Properties *)

(** ** Structural view *)

Lemma expr_nested_ind (P : expression -> Prop) :
  (forall c v, P (Leaf c v)) ->
  (forall c operands, Forall P operands -> P (Node c operands)) ->
  forall e, P e.
Proof.
  intros HL HN. fix IH 1. intros [c v | c operands].
  - apply HL.
  - apply HN. induction operands as [| o os IHos]; constructor.
    + apply IH.
    + exact IHos.
Qed.


Lemma Number_numeric v : numeric v = true -> Number v = OK (Leaf CNumber v).
Proof. destruct v; simpl; intros H; try discriminate H; reflexivity. Qed.

Lemma Number_not_numeric v :
  numeric v = false ->
  Number v = Raise (TypeError "Number value must be an int or float.").
Proof. destruct v; simpl; intros H; try discriminate H; reflexivity. Qed.

Lemma Symbol_textual v : textual v = true -> Symbol v = OK (Leaf CSymbol v).
Proof. destruct v; simpl; intros H; try discriminate H; reflexivity. Qed.

Lemma Symbol_not_textual v :
  textual v = false ->
  Symbol v = Raise (TypeError "Symbol value must be a string.").
Proof. destruct v; simpl; intros H; try discriminate H; reflexivity. Qed.

(** On trees whose operators are binary, [differentiate] either meets a node
    without a rule and raises for it, or returns the tree of the rule
    table. *)
Lemma differentiate_binary var e :
  binary e = true ->
  differentiate e var =
    match first_unhandled e with
    | Some n => Raise (NotImplementedError ("Cannot differentiate " +:+ n))
    | None => OK (derivative var e)
    end.
Proof.
  induction e as [c v | c operands IH] using expr_nested_ind; intros Hb.
  - destruct c; simpl; try reflexivity.
    destruct (value_eq_str v var); reflexivity.
  - destruct c; try reflexivity;
      simpl in Hb; destruct operands as [| l [| r [| ? ?]]]; try discriminate Hb;
      try reflexivity;
      apply andb_prop in Hb as [Hl Hr];
      inversion IH as [| ? ? IHl IH']; subst;
      inversion IH' as [| ? ? IHr _]; subst;
      specialize (IHl Hl); specialize (IHr Hr);
      simpl; rewrite IHl;
      destruct (first_unhandled l); simpl; try reflexivity;
      rewrite IHr; destruct (first_unhandled r); reflexivity.
Qed.

Lemma well_formed_binary e : well_formed e = true -> binary e = true.
Proof.
  induction e as [c v | c operands IH] using expr_nested_ind; intros Hw.
  - reflexivity.
  - destruct c; simpl in Hw; try discriminate Hw;
      destruct operands as [| l [| r [| ? ?]]]; try discriminate Hw;
      apply andb_prop in Hw as [Hl Hr];
      inversion IH as [| ? ? IHl IH']; subst;
      inversion IH' as [| ? ? IHr _]; subst;
      simpl; rewrite (IHl Hl), (IHr Hr); reflexivity.
Qed.

Lemma well_formed_handled e : well_formed e = true -> first_unhandled e = None.
Proof.
  induction e as [c v | c operands IH] using expr_nested_ind; intros Hw.
  - destruct c; simpl in *; congruence.
  - destruct c; simpl in Hw; try discriminate Hw;
      destruct operands as [| l [| r [| ? ?]]]; try discriminate Hw;
      try reflexivity;
      apply andb_prop in Hw as [Hl Hr];
      inversion IH as [| ? ? IHl IH']; subst;
      inversion IH' as [| ? ? IHr _]; subst;
      simpl; rewrite (IHl Hl), (IHr Hr); reflexivity.
Qed.

(** [differentiate] returns on every well-formed tree, with the tree of the
    rule table. *)
Lemma differentiate_well_formed var e :
  well_formed e = true -> differentiate e var = OK (derivative var e).
Proof.
  intros Hw. rewrite differentiate_binary by (apply well_formed_binary, Hw).
  rewrite well_formed_handled by exact Hw. reflexivity.
Qed.

(** *** Constructors *)

(** C7. [Number(v)] returns a [Number] holding [v] for every numeric [v] and
    raises [TypeError] for every other value; [Symbol(v)] returns a [Symbol]
    holding [v] for every string [v] and raises [TypeError] for every other
    value.  The check is the first thing the constructor does: in the object
    store a failing call allocates nothing, a successful one allocates exactly
    the new terminal. *)
Theorem constructors_check_their_argument (v : value) :
  Number v = (if numeric v then OK (Leaf CNumber v)
              else Raise (TypeError "Number value must be an int or float.")) /\
  Symbol v = (if textual v then OK (Leaf CSymbol v)
              else Raise (TypeError "Symbol value must be a string.")) /\
  (forall h : Store.store,
      Store.Number v h =
        (if numeric v then Some (OK (List.length h, h ++ [Store.OLeaf CNumber v]))
         else Some (Raise (TypeError "Number value must be an int or float."))) /\
      Store.Symbol v h =
        (if textual v then Some (OK (List.length h, h ++ [Store.OLeaf CSymbol v]))
         else Some (Raise (TypeError "Symbol value must be a string.")))).
Proof.
  repeat split; destruct v; reflexivity.
Qed.

(** *** Infix construction *)

(** C6. For an expression [e] and a numeric literal [k], [e + k] is
    [Add(e, Number(k))] and [k + e] is [Add(Number(k), e)]; likewise [-], [*],
    [/] and [**] build [Sub], [Mul], [Div] and [Pow].  The operand that is not
    an expression is wrapped by [Number], an operand that is an expression is
    taken as it is, and the left/right order of the source text is kept. *)
Theorem infix_builds_operator (e : expression) (k : value) :
  numeric k = true ->
  exists n,
    Number k = OK n /\ n = Leaf CNumber k /\
    infix_add (PExpr e) (PVal k) = Some (OK (Add e n)) /\
    infix_add (PVal k) (PExpr e) = Some (OK (Add n e)) /\
    infix_sub (PExpr e) (PVal k) = Some (OK (Sub e n)) /\
    infix_sub (PVal k) (PExpr e) = Some (OK (Sub n e)) /\
    infix_mul (PExpr e) (PVal k) = Some (OK (Mul e n)) /\
    infix_mul (PVal k) (PExpr e) = Some (OK (Mul n e)) /\
    infix_truediv (PExpr e) (PVal k) = Some (OK (Div e n)) /\
    infix_truediv (PVal k) (PExpr e) = Some (OK (Div n e)) /\
    infix_pow (PExpr e) (PVal k) = Some (OK (Pow e n)) /\
    infix_pow (PVal k) (PExpr e) = Some (OK (Pow n e)) /\
    (forall o : expression,
        infix_add (PExpr e) (PExpr o) = Some (OK (Add e o)) /\
        infix_sub (PExpr e) (PExpr o) = Some (OK (Sub e o)) /\
        infix_mul (PExpr e) (PExpr o) = Some (OK (Mul e o)) /\
        infix_truediv (PExpr e) (PExpr o) = Some (OK (Div e o)) /\
        infix_pow (PExpr e) (PExpr o) = Some (OK (Pow e o))).
Proof.
  intros Hk. exists (Leaf CNumber k).
  pose proof (Number_numeric k Hk) as HN.
  unfold infix_add, infix_sub, infix_mul, infix_truediv, infix_pow, binary_op,
    __add__, __radd__, __sub__, __rsub__, __mul__, __rmul__,
    __truediv__, __rtruediv__, __pow__, __rpow__, as_expression.
  rewrite HN. simpl. repeat split; reflexivity.
Qed.

Lemma infix_builds_operator_witness :
  numeric (VInt 2%Z) = true /\
  infix_pow (PVal (VInt 2%Z)) (PExpr (Leaf CSymbol (VStr "x")))
  = Some (OK (Pow (Leaf CNumber (VInt 2%Z)) (Leaf CSymbol (VStr "x")))).
Proof.
  split; [reflexivity |].
  destruct (infix_builds_operator (Leaf CSymbol (VStr "x")) (VInt 2%Z) eq_refl)
    as (n & _ & -> & H).
  apply H.
Defined.

(** A literal that is not numeric cannot be wrapped: the infix form raises
    the [TypeError] of [Number]. *)
Lemma infix_non_numeric (e : expression) (k : value) :
  numeric k = false ->
  infix_add (PExpr e) (PVal k)
  = Some (Raise (TypeError "Number value must be an int or float.")).
Proof.
  intros Hk. unfold infix_add, binary_op, __add__, as_expression.
  rewrite (Number_not_numeric k Hk). reflexivity.
Qed.

(** *** Rendering *)

Lemma append_assoc (a b c : string) : (a +:+ b) +:+ c = a +:+ b +:+ c.
Proof.
  induction a as [| x a IH]; [reflexivity |].
  change (String x ((a +:+ b) +:+ c) = String x (a +:+ b +:+ c)).
  rewrite IH. reflexivity.
Qed.

(** The text of a two-operand operator. *)
Lemma str_binary builtin_str object_str c sym p l r pl pr sl sr :
  symbol c = Some sym ->
  node_precedence c = Some p ->
  precedence l = OK pl ->
  precedence r = OK pr ->
  str builtin_str object_str l = OK sl ->
  str builtin_str object_str r = OK sr ->
  str builtin_str object_str (Node c [l; r])
  = OK (parenthesised (prec_lt pl p) sl +:+ " " +:+ sym +:+ " "
        +:+ parenthesised (prec_lt pr p) sr).
Proof.
  intros Hsym Hp Hpl Hpr Hsl Hsr.
  simpl. rewrite Hsym, Hp. simpl. unfold format_operand.
  rewrite Hpl, Hpr. simpl.
  destruct (prec_lt pl p), (prec_lt pr p); simpl;
    rewrite ?Hsl, ?Hsr; simpl; rewrite ?Hsl, ?Hsr; simpl;
    rewrite !append_assoc; reflexivity.
Qed.

(** C5. A leaf renders as the text of its value, which for an [int] within
    the interpreter's digit limit is its decimal digits.  An operator with operands
    [l] and [r] renders as the text of [l], a space, the symbol of the
    operator, a space, and the text of [r], where the text of an operand is
    wrapped in parentheses exactly when the precedence of the operand is
    strictly less than the precedence of the operator; no precedence is less
    than itself.  So
    [Sub(a, Sub(b, c))] renders as ["a - b - c"] and [Mul(Add(x, 1), 2)] as
    ["(x + 1) * 2"]. *)
Theorem str_operator_infix (builtin_str : value -> string) (object_str : string)
    (c : node_cls) (sym : string) (p : prec) (l r : expression)
    (pl pr : prec) (sl sr : string) :
  symbol c = Some sym ->
  node_precedence c = Some p ->
  precedence l = OK pl ->
  precedence r = OK pr ->
  str builtin_str object_str l = OK sl ->
  str builtin_str object_str r = OK sr ->
  str builtin_str object_str (Node c [l; r])
  = OK (parenthesised (prec_lt pl p) sl +:+ " " +:+ sym +:+ " "
        +:+ parenthesised (prec_lt pr p) sr) /\
  (forall lc v, str builtin_str object_str (Leaf lc v) = str_value builtin_str v) /\
  (forall lc z, N.le (int_digits z) int_max_str_digits ->
                str builtin_str object_str (Leaf lc (VInt z))
                = OK (NilZero.string_of_int (Z.to_int z))) /\
  (forall lc s, str builtin_str object_str (Leaf lc (VStr s)) = OK s) /\
  (forall q, prec_lt q q = false) /\
  str builtin_str object_str
    (Sub (Leaf CSymbol (VStr "a"))
         (Sub (Leaf CSymbol (VStr "b")) (Leaf CSymbol (VStr "c"))))
  = OK "a - b - c" /\
  str builtin_str object_str
    (Mul (Add (Leaf CSymbol (VStr "x")) (Leaf CNumber (VInt 1%Z)))
         (Leaf CNumber (VInt 2%Z)))
  = OK "(x + 1) * 2".
Proof.
  intros Hsym Hp Hpl Hpr Hsl Hsr.
  split; [apply str_binary; assumption |].
  split; [reflexivity |].
  split.
  { intros lc z Hz. cbn [str str_value]. unfold str_int.
    apply N.ltb_ge in Hz. rewrite Hz. reflexivity. }
  split; [reflexivity |].
  split; [| split; reflexivity].
  intros [n |]; [apply Z.ltb_irrefl | reflexivity].
Qed.

Lemma str_operator_infix_witness :
  let l := Node CMul [Leaf CSymbol (VStr "x"); Leaf CNumber (VInt 2%Z)] in
  let r := Leaf CNumber (VInt (-3)%Z) in
  (symbol CPow = Some "^" /\ node_precedence CPow = Some (Finite 3%Z) /\
   precedence l = OK (Finite 2%Z) /\ precedence r = OK Infinity /\
   str (fun _ => "") "" l = OK "x * 2" /\ str (fun _ => "") "" r = OK "-3") /\
  str (fun _ => "") "" (Node CPow [l; r]) = OK "(x * 2) ^ -3".
Proof.
  split; [repeat split |].
  exact (proj1 (str_operator_infix (fun _ => "") "" CPow "^" (Finite 3%Z)
                  (Node CMul [Leaf CSymbol (VStr "x"); Leaf CNumber (VInt 2%Z)])
                  (Leaf CNumber (VInt (-3)%Z))
                  (Finite 2%Z) Infinity "x * 2" "-3"
                  eq_refl eq_refl eq_refl eq_refl eq_refl eq_refl)).
Defined.

(** *** Differentiation *)

(** C3. [differentiate] follows the rule table on the registered variants:
    [d(Number(_)) = Number(0)]; [d(Symbol(name))] is [Number(1)] when
    [name == var] and [Number(0)] otherwise; and for well-formed operands [l]
    and [r], whose derivatives [d(l)] and [d(r)] it returns,
    [d(Add(l, r)) = Add(d(l), d(r))], [d(Sub(l, r)) = Sub(d(l), d(r))],
    [d(Mul(l, r)) = Add(Mul(d(l), r), Mul(l, d(r)))] and
    [d(Div(l, r)) = Div(Sub(Mul(r, d(l)), Mul(l, d(r))), Pow(r, Number(2)))].
    In particular [d(Add(Symbol("x"), Symbol("y")))] at ["x"] is
    [Add(Number(1), Number(0))]. *)
Theorem differentiate_rule_table (var : string) (l r : expression) :
  well_formed l = true ->
  well_formed r = true ->
  exists dl dr,
    differentiate l var = OK dl /\
    differentiate r var = OK dr /\
    (forall v, differentiate (Leaf CNumber v) var = OK (Leaf CNumber (VInt 0%Z))) /\
    (forall name,
        (name = var ->
         differentiate (Leaf CSymbol (VStr name)) var = OK (Leaf CNumber (VInt 1%Z))) /\
        (name <> var ->
         differentiate (Leaf CSymbol (VStr name)) var = OK (Leaf CNumber (VInt 0%Z)))) /\
    differentiate (Add l r) var = OK (Add dl dr) /\
    differentiate (Sub l r) var = OK (Sub dl dr) /\
    differentiate (Mul l r) var = OK (Add (Mul dl r) (Mul l dr)) /\
    differentiate (Div l r) var
    = OK (Div (Sub (Mul r dl) (Mul l dr)) (Pow r (Leaf CNumber (VInt 2%Z)))) /\
    differentiate (Add (Leaf CSymbol (VStr "x")) (Leaf CSymbol (VStr "y"))) "x"
    = OK (Add (Leaf CNumber (VInt 1%Z)) (Leaf CNumber (VInt 0%Z))).
Proof.
  intros Hl Hr.
  exists (derivative var l), (derivative var r).
  pose proof (differentiate_well_formed var l Hl) as Hdl.
  pose proof (differentiate_well_formed var r Hr) as Hdr.
  split; [exact Hdl |]. split; [exact Hdr |].
  split; [reflexivity |].
  split.
  { intros name. split.
    - intros ->. simpl. rewrite String.eqb_refl. reflexivity.
    - intros Hne. simpl. apply String.eqb_neq in Hne. rewrite Hne. reflexivity. }
  repeat split; simpl; rewrite ?Hdl; simpl; rewrite ?Hdr; reflexivity.
Qed.

Lemma differentiate_rule_table_witness :
  let l := Mul (Leaf CSymbol (VStr "x")) (Leaf CSymbol (VStr "x")) in
  let r := Pow (Leaf CSymbol (VStr "x")) (Leaf CNumber (VInt 3%Z)) in
  well_formed l = true /\ well_formed r = true /\
  exists dl dr,
    differentiate (Div l r) "x"
    = OK (Div (Sub (Mul r dl) (Mul l dr)) (Pow r (Leaf CNumber (VInt 2%Z)))).
Proof.
  split; [reflexivity |]. split; [reflexivity |].
  destruct (differentiate_rule_table "x"
              (Mul (Leaf CSymbol (VStr "x")) (Leaf CSymbol (VStr "x")))
              (Pow (Leaf CSymbol (VStr "x")) (Leaf CNumber (VInt 3%Z)))
              eq_refl eq_refl)
    as (dl & dr & _ & _ & _ & _ & _ & _ & _ & H & _).
  exists dl, dr. exact H.
Defined.

(** C4. For every [base], [exp] and [var], [differentiate(Pow(base, exp))]
    returns [Mul(exp, Pow(base, Sub(exp, Number(1))))].  The exponent is
    placed in the result as it is: the equation holds whatever [exp] is,
    whether or not [var] occurs in it, and even when differentiating [exp]
    itself would raise. *)
Theorem differentiate_Pow_keeps_exponent (base exponent : expression) (var : string) :
  differentiate (Pow base exponent) var
  = OK (Mul exponent (Pow base (Sub exponent (Leaf CNumber (VInt 1%Z))))) /\
  differentiate (Pow (Leaf CSymbol (VStr "x")) (Leaf CNumber (VInt 3%Z))) "x"
  = OK (Mul (Leaf CNumber (VInt 3%Z))
            (Pow (Leaf CSymbol (VStr "x"))
                 (Sub (Leaf CNumber (VInt 3%Z)) (Leaf CNumber (VInt 1%Z))))).
Proof. split; reflexivity. Qed.

(** The exponent may hold the variable, or a node without a rule. *)
Example differentiate_Pow_variable_exponent :
  differentiate (Pow (Leaf CNumber (VInt 2%Z)) (Leaf CSymbol (VStr "x"))) "x"
  = OK (Mul (Leaf CSymbol (VStr "x"))
            (Pow (Leaf CNumber (VInt 2%Z))
                 (Sub (Leaf CSymbol (VStr "x")) (Leaf CNumber (VInt 1%Z))))) /\
  differentiate (Node CExpression []) "x"
  = Raise (NotImplementedError "Cannot differentiate Expression") /\
  differentiate (Pow (Leaf CSymbol (VStr "x")) (Node CExpression [])) "x"
  = OK (Mul (Node CExpression [])
            (Pow (Leaf CSymbol (VStr "x"))
                 (Sub (Node CExpression []) (Leaf CNumber (VInt 1%Z))))).
Proof. repeat split. Qed.

(** C8, as stated, fails: the error is also raised for an input whose own
    variant is in the rule table, when the recursion meets an operand
    without a rule. *)
Lemma differentiate_unsupported_below_root :
  ~ (forall (e : expression) (var msg : string),
        differentiate e var = Raise (NotImplementedError msg) ->
        registered e = false).
Proof.
  intros H.
  specialize (H (Add (Node CExpression []) (Leaf CNumber (VInt 1%Z))) "x"
                "Cannot differentiate Expression" eq_refl).
  discriminate H.
Qed.

(** C8, amended. On a node whose variant is not in the rule table,
    [differentiate] raises [NotImplementedError] with a message that names
    the class of the node.  On trees whose operators have two operands it
    raises this error exactly when its recursion, which enters both operands
    of [Add], [Sub], [Mul] and [Div] and never those of [Pow], meets a node
    whose variant is not in the table; the message names the class of the
    first such node, and otherwise the call returns. *)
Theorem differentiate_unsupported (e : expression) (var : string) :
  (registered e = false ->
   differentiate e var
   = Raise (NotImplementedError ("Cannot differentiate " +:+ class_name e))) /\
  (binary e = true ->
   (forall msg,
       differentiate e var = Raise (NotImplementedError msg) <->
       exists n, first_unhandled e = Some n /\ msg = "Cannot differentiate " +:+ n) /\
   (first_unhandled e = None -> exists d, differentiate e var = OK d) /\
   (registered e = false -> first_unhandled e = Some (class_name e))).
Proof.
  split.
  - destruct e as [[] v | [] ops]; simpl; intros H; try discriminate H; reflexivity.
  - intros Hb. pose proof (differentiate_binary var e Hb) as Hd.
    split; [| split].
    + intros msg. rewrite Hd. destruct (first_unhandled e) as [n |].
      * split.
        -- intros [= <-]. exists n. split; reflexivity.
        -- intros (n' & [= <-] & ->). reflexivity.
      * split; [discriminate | intros (n' & Hn & _); discriminate Hn].
    + intros Hnone. rewrite Hd, Hnone. eexists; reflexivity.
    + destruct e as [[] v | [] ops]; simpl; intros H; try discriminate H; reflexivity.
Qed.

Lemma differentiate_unsupported_witness :
  let e := Sub (Leaf CSymbol (VStr "x")) (Leaf CTerminal (VInt 1%Z)) in
  binary e = true /\ registered (Leaf CTerminal (VInt 1%Z)) = false /\
  differentiate (Leaf CTerminal (VInt 1%Z)) "x"
  = Raise (NotImplementedError "Cannot differentiate Terminal") /\
  (differentiate e "x" = Raise (NotImplementedError "Cannot differentiate Terminal") <->
   exists n, first_unhandled e = Some n /\
             "Cannot differentiate Terminal" = "Cannot differentiate " +:+ n).
Proof.
  split; [reflexivity |]. split; [reflexivity |]. split.
  - exact (proj1 (differentiate_unsupported (Leaf CTerminal (VInt 1%Z)) "x") eq_refl).
  - exact (proj1 (proj2 (differentiate_unsupported
                           (Sub (Leaf CSymbol (VStr "x")) (Leaf CTerminal (VInt 1%Z))) "x")
                        eq_refl)
             "Cannot differentiate Terminal").
Defined.

(** ** Object store: the postorder visitor *)

Lemma bottom_up_from_operand i (h : Store.store) k ob o :
  Store.bottom_up_from i h = true ->
  h !! k = Some ob -> In o (Store.operands ob) -> (o < i + k)%nat.
Proof.
  revert i k. induction h as [| x h IH]; intros i k Hb Hk Ho.
  - rewrite lookup_nil in Hk. discriminate Hk.
  - simpl in Hb. apply andb_prop in Hb as [Hx Hh]. destruct k as [| k].
    + simpl in Hk. injection Hk as ->.
      rewrite forallb_forall in Hx. apply Hx in Ho.
      apply Nat.ltb_lt in Ho. lia.
    + simpl in Hk. specialize (IH (S i) k Hh Hk Ho). lia.
Qed.

Lemma operand_lt (h : Store.store) o e :
  Store.bottom_up h = true -> operand_of h o e -> (o < e)%nat.
Proof.
  intros Hb (ob & He & Ho).
  apply (bottom_up_from_operand 0 h e ob o Hb He Ho).
Qed.

Lemma descendant_lt (h : Store.store) e d :
  Store.bottom_up h = true -> descendant h e d -> (d < e)%nat.
Proof.
  intros Hb Hd. induction Hd as [e o Ho | e o d Ho _ IH].
  - apply (operand_lt h o e Hb Ho).
  - pose proof (operand_lt h o e Hb Ho). lia.
Qed.

Lemma descendant_trans (h : Store.store) a b c :
  descendant h a b -> descendant h b c -> descendant h a c.
Proof.
  intros Hab Hbc. induction Hab as [a b Ho | a o b Ho _ IH].
  - apply (descendant_below h a b c Ho Hbc).
  - apply (descendant_below h a o c Ho). apply IH, Hbc.
Qed.

Lemma cost_stable (h : Store.store) :
  Store.bottom_up h = true ->
  forall n m e, (e < n)%nat -> (e < m)%nat -> cost n h e = cost m h e.
Proof.
  intros Hb. induction n as [| n IH]; intros m e Hn Hm; [lia |].
  destruct m as [| m]; [lia |]. simpl.
  destruct (h !! e) as [ob |] eqn:He; [| reflexivity].
  do 3 f_equal. apply map_ext_in. intros o Ho.
  assert (o < e)%nat by (apply (operand_lt h o e Hb); exists ob; auto).
  apply IH; lia.
Qed.

Lemma bound_unfold (h : Store.store) e ob :
  Store.bottom_up h = true -> h !! e = Some ob ->
  bound h e = 2 + list_sum (map (bound h) (Store.operands ob)).
Proof.
  intros Hb He. unfold bound at 1. simpl. rewrite He.
  do 3 f_equal. apply map_ext_in. intros o Ho.
  assert (o < e)%nat by (apply (operand_lt h o e Hb); exists ob; auto).
  unfold bound. apply cost_stable; auto with lia.
Qed.

Lemma bound_pos (h : Store.store) e : (1 <= bound h e)%nat.
Proof. unfold bound. simpl. destruct (h !! e); lia. Qed.

Lemma ready_mono (h : Store.store) (K K' : gset nat) e :
  K ⊆ K' -> ready h K e = true -> ready h K' e = true.
Proof.
  unfold ready. intros HK. destruct (h !! e) as [ob |]; [| reflexivity].
  rewrite !forallb_forall. intros H o Ho. specialize (H o Ho).
  apply bool_decide_eq_true in H. apply bool_decide_eq_true. set_solver.
Qed.

Lemma weight_mono (h : Store.store) stk :
  forall K K' : gset nat, K ⊆ K' -> (weight h K' stk <= weight h K stk)%nat.
Proof.
  induction stk as [| e stk IH]; intros K K' HK; simpl; [lia |].
  assert (weight h (K' ∪ {[e]}) stk <= weight h (K ∪ {[e]}) stk)%nat as Hrest.
  { apply IH. apply union_mono_r, HK. }
  pose proof (bound_pos h e).
  destruct (ready h K e) eqn:HrK.
  - rewrite (ready_mono h K K' e HK HrK). lia.
  - destruct (ready h K' e); lia.
Qed.

Lemma weight_le_sum (h : Store.store) stk :
  forall K : gset nat, (weight h K stk <= list_sum (map (bound h) stk))%nat.
Proof.
  induction stk as [| e stk IH]; intros K; simpl; [lia |].
  specialize (IH (K ∪ {[e]})). pose proof (bound_pos h e).
  destruct (ready h K e); lia.
Qed.

Lemma weight_app (h : Store.store) l1 :
  forall (K : gset nat) l2,
    weight h K (l1 ++ l2) = (weight h K l1 + weight h (K ∪ list_to_set l1) l2)%nat.
Proof.
  induction l1 as [| e l1 IH]; intros K l2; simpl.
  - rewrite (right_id_L ∅ (∪)). reflexivity.
  - rewrite IH. rewrite (assoc_L (∪)). lia.
Qed.

Lemma list_sum_rev l : list_sum (rev l) = list_sum l.
Proof.
  induction l as [| x l IH]; simpl; [reflexivity |].
  rewrite list_sum_app. simpl. lia.
Qed.

Lemma list_sum_filter {A} (g : A -> nat) (p : A -> bool) l :
  (list_sum (map g (List.filter p l)) <= list_sum (map g l))%nat.
Proof.
  induction l as [| x l IH]; simpl; [lia |].
  destruct (p x); simpl; lia.
Qed.

Lemma filter_not_in {R} (v : gmap nat R) ops o :
  In o (List.filter (Store.not_in v) ops) <-> In o ops /\ v !! o = None.
Proof.
  rewrite filter_In. unfold Store.not_in.
  destruct (v !! o); intuition congruence.
Qed.

Lemma filter_not_in_nil {R} (v : gmap nat R) ops o :
  List.filter (Store.not_in v) ops = [] -> In o ops -> is_Some (v !! o).
Proof.
  intros Hnil Ho. destruct (v !! o) as [x |] eqn:Hv; [eauto |].
  assert (In o (List.filter (Store.not_in v) ops)) as Hin
    by (apply filter_not_in; auto).
  rewrite Hnil in Hin. destruct Hin.
Qed.

Lemma mapM_lookup_Forall2 {R} (v : gmap nat R) ops :
  forall results,
    mapM (Store.lookup_visited v) ops = OK results ->
    Forall2 (fun o x => v !! o = Some x) ops results.
Proof.
  induction ops as [| o ops IH]; intros results H; simpl in H.
  - injection H as <-. constructor.
  - unfold Store.lookup_visited in H at 1.
    destruct (v !! o) as [x |] eqn:Hv; simpl in H; [| discriminate H].
    destruct (mapM (Store.lookup_visited v) ops) as [rs | ?]; simpl in H;
      [| discriminate H].
    injection H as <-. constructor; auto.
Qed.

Lemma mapM_lookup_total {R} (v : gmap nat R) ops :
  List.filter (Store.not_in v) ops = [] ->
  exists results, mapM (Store.lookup_visited v) ops = OK results.
Proof.
  induction ops as [| o ops IH]; intros Hnil; simpl.
  - eexists; reflexivity.
  - simpl in Hnil. unfold Store.not_in in Hnil at 1.
    unfold Store.lookup_visited at 1.
    destruct (v !! o) as [x |]; [| discriminate Hnil].
    destruct (IH Hnil) as [rs ->]. simpl. eexists; reflexivity.
Qed.

Section Loop.
Context {R W : Type}.
Variable h : Store.store.
Variable fn : nat -> list R -> W -> R * W.
Hypothesis Hb : Store.bottom_up h = true.

Lemma iteration_step st e stk st' :
  Store.stack st = e :: stk ->
  Store.iteration h fn st = Some (OK st') ->
  loop_step h fn st st'.
Proof.
  destruct st as [s v w]. simpl. intros -> H.
  unfold Store.iteration in H. simpl in H.
  destruct (h !! e) as [ob |] eqn:He; [| discriminate H].
  pose proof (step_push h fn e stk ob v w He) as Hpush.
  destruct (List.filter (Store.not_in v) (Store.operands ob)) as [| c cs] eqn:Hf.
  - destruct (mapM (Store.lookup_visited v) (Store.operands ob)) as [rs | ?] eqn:Hm;
      [| discriminate H].
    destruct (fn e rs w) as [r w'] eqn:Hfn.
    injection H as <-.
    apply (step_visit h fn e stk ob v w rs r w'); auto.
    apply mapM_lookup_Forall2, Hm.
  - injection H as <-. apply Hpush. discriminate.
Qed.

Lemma iteration_progress st e stk :
  Store.stack st = e :: stk -> (e < List.length h)%nat ->
  exists st', Store.iteration h fn st = Some (OK st').
Proof.
  destruct st as [s v w]. simpl. intros -> He.
  unfold Store.iteration. simpl.
  destruct (lookup_lt_is_Some_2 h e He) as [ob ->].
  destruct (List.filter (Store.not_in v) (Store.operands ob)) as [| c cs] eqn:Hf.
  - destruct (mapM_lookup_total v _ Hf) as [rs ->].
    destruct (fn e rs w) as [r w']. eexists; reflexivity.
  - eexists; reflexivity.
Qed.

Lemma step_in_store st st' : loop_step h fn st st' -> in_store h st -> in_store h st'.
Proof using Hb.
  unfold in_store. intros Hs. destruct Hs as [e stk ob v w He Hf | e stk ob v w rs r w' He Hf Hrs Hfn];
    simpl; intros Hv.
  - apply Forall_app. split; [| exact Hv].
    apply Forall_forall. intros o Ho. apply list_elem_of_In in Ho.
    apply in_rev in Ho. apply filter_not_in in Ho as [Ho _].
    assert (o < e)%nat by (apply (operand_lt h o e Hb); exists ob; auto).
    apply lookup_lt_Some in He. lia.
  - inversion Hv; auto.
Qed.

Lemma step_decreases st st' :
  loop_step h fn st st' ->
  (weight h (dom (Store.visited st')) (Store.stack st')
   < weight h (dom (Store.visited st)) (Store.stack st))%nat.
Proof using Hb.
  intros Hs. destruct Hs as [e stk ob v w He Hf | e stk ob v w rs r w' He Hf Hrs Hfn];
    simpl.
  - set (U := List.filter (Store.not_in v) (Store.operands ob)) in *.
    rewrite weight_app. simpl.
    assert (ready h (dom v ∪ list_to_set (rev U)) e = true) as ->.
    { unfold ready. rewrite He. apply forallb_forall. intros o Ho.
      apply bool_decide_eq_true. apply elem_of_union.
      destruct (v !! o) as [x |] eqn:Hv.
      - left. apply elem_of_dom. eauto.
      - right. apply elem_of_list_to_set, list_elem_of_In.
        apply -> in_rev. apply filter_not_in. auto. }
    assert (ready h (dom v) e = false) as ->.
    { unfold ready. rewrite He. apply not_true_is_false. intros Hall.
      rewrite forallb_forall in Hall.
      destruct U as [| c cs] eqn:HU; [congruence |].
      assert (In c (c :: cs)) as Hc by (left; reflexivity).
      rewrite <- HU in Hc. apply filter_not_in in Hc as [Hc Hnone].
      specialize (Hall c Hc). apply bool_decide_eq_true in Hall.
      apply elem_of_dom in Hall as [x Hx]. congruence. }
    pose proof (weight_le_sum h (rev U) (dom v)) as H1.
    rewrite map_rev, list_sum_rev in H1.
    pose proof (list_sum_filter (bound h) (Store.not_in v) (Store.operands ob)) as H2.
    fold U in H2.
    rewrite (bound_unfold h e ob Hb He).
    pose proof (weight_mono h stk (dom v ∪ {[e]})
                  (dom v ∪ list_to_set (rev U) ∪ {[e]})) as H3.
    assert (dom v ∪ {[e]} ⊆ dom v ∪ list_to_set (rev U) ∪ {[e]}) as Hsub
      by (intros x Hx; apply elem_of_union in Hx as [Hx | Hx];
          [apply elem_of_union_l, elem_of_union_l, Hx | apply elem_of_union_r, Hx]).
    specialize (H3 Hsub). lia.
  - rewrite dom_insert_L. rewrite (comm_L (∪) {[e]} (dom v)).
    pose proof (bound_pos h e). destruct (ready h (dom v) e); lia.
Qed.

(** On a store built bottom-up the loop ends, within a number of
    iterations given by the measure. *)
Lemma while_stack_terminates fuel :
  forall st,
    in_store h st ->
    (weight h (dom (Store.visited st)) (Store.stack st) < fuel)%nat ->
    exists st', Store.while_stack h fn fuel st = Some (OK st') /\ Store.stack st' = [].
Proof using Hb.
  induction fuel as [| fuel IH]; intros st Hin Hw; [lia |].
  destruct (Store.stack st) as [| e stk] eqn:Hstk.
  - exists st. simpl. rewrite Hstk. auto.
  - assert (e < List.length h)%nat as He
      by (unfold in_store in Hin; rewrite Hstk in Hin; inversion Hin; auto).
    destruct (iteration_progress st e stk Hstk He) as [st1 Hit].
    pose proof (iteration_step st e stk st1 Hstk Hit) as Hs.
    pose proof (step_decreases st st1 Hs) as Hd. rewrite Hstk in Hd.
    destruct (IH st1 (step_in_store st st1 Hs Hin)) as (st' & Hrun & Hfin); [lia |].
    exists st'. split; [| exact Hfin].
    simpl. rewrite Hstk, Hit. simpl. exact Hrun.
Qed.

(** A property kept by every iteration holds when the loop ends. *)
Lemma while_stack_invariant (P : @Store.frame R W -> Prop) :
  (forall st st', P st -> loop_step h fn st st' -> P st') ->
  forall fuel st st',
    P st -> Store.while_stack h fn fuel st = Some (OK st') ->
    P st' /\ Store.stack st' = [].
Proof.
  intros Hstep. induction fuel as [| fuel IH]; intros st st' HP Hrun; simpl in Hrun.
  - destruct (Store.stack st) eqn:Hstk; [| discriminate Hrun].
    injection Hrun as <-. auto.
  - destruct (Store.stack st) as [| e stk] eqn:Hstk.
    + injection Hrun as <-. auto.
    + destruct (Store.iteration h fn st) as [[st1 | ?] |] eqn:Hit;
        simpl in Hrun; try discriminate Hrun.
      apply (IH st1 st'); [| exact Hrun].
      apply (Hstep st st1 HP). apply (iteration_step st e stk st1 Hstk Hit).
Qed.
End Loop.

Section Invariants.
Context {R W : Type}.
Variable h : Store.store.
Variable fn : nat -> list R -> W -> R * W.
Hypothesis Hb : Store.bottom_up h = true.
Variable root : nat.

Lemma node_of_dag_operand e o :
  node_of_dag h root e -> operand_of h o e -> node_of_dag h root o.
Proof.
  intros [-> | Hd] Ho; right.
  - apply descendant_operand, Ho.
  - apply (descendant_trans h root e o Hd). apply descendant_operand, Ho.
Qed.

Lemma dag_invariant_initial (w : W) :
  dag_invariant h root (@Store.initial R W root w).
Proof.
  unfold dag_invariant, Store.initial; simpl. repeat split.
  - intros e [<- | []]. left; reflexivity.
  - intros e [x Hx]. rewrite lookup_empty in Hx. discriminate Hx.
  - intros e o [x Hx]. rewrite lookup_empty in Hx. discriminate Hx.
  - left. exists []. split; [reflexivity | split; [constructor | apply lookup_empty]].
Qed.

Lemma children_below (v : gmap nat R) e ob (bound_ : nat) :
  h !! e = Some ob -> (e <= bound_)%nat ->
  Forall (fun x => (x < bound_)%nat)
         (rev (List.filter (Store.not_in v) (Store.operands ob))).
Proof using Hb.
  intros He Hle. apply Forall_forall. intros o Ho.
  apply list_elem_of_In in Ho. apply in_rev in Ho.
  apply filter_not_in in Ho as [Ho _].
  assert (o < e)%nat by (apply (operand_lt h o e Hb); exists ob; auto).
  lia.
Qed.

Lemma dag_invariant_step st st' :
  dag_invariant h root st -> loop_step h fn st st' -> dag_invariant h root st'.
Proof using Hb.
  intros (Hstk & Hvis & Hclosed & Hbot) Hs.
  destruct Hs as [e stk ob v w He Hf | e stk ob v w rs r w' He Hf Hrs Hfn];
    simpl in *; unfold dag_invariant; simpl.
  - split; [| split; [exact Hvis | split; [exact Hclosed |]]].
    + intros x Hx. apply in_app_or in Hx as [Hx | Hx]; [| apply Hstk, Hx].
      apply in_rev in Hx. apply filter_not_in in Hx as [Hx _].
      apply (node_of_dag_operand e x); [apply Hstk; left; reflexivity |].
      exists ob; auto.
    + left. destruct Hbot as [(stk0 & Heq & Hlt & Hnone) | [Hnil _]];
        [| discriminate Hnil].
      destruct stk0 as [| x stk0]; simpl in Heq; injection Heq as -> ->.
      * exists (rev (List.filter (Store.not_in v) (Store.operands ob))).
        split; [reflexivity |]. split; [| exact Hnone].
        apply (children_below v root ob root He). lia.
      * exists (rev (List.filter (Store.not_in v) (Store.operands ob)) ++ x :: stk0).
        split; [rewrite <- app_assoc; reflexivity |]. split; [| exact Hnone].
        apply Forall_app. split; [| exact Hlt].
        apply (children_below v x ob root He).
        inversion Hlt; subst; lia.
  - split; [| split; [| split]].
    + intros x Hx. apply Hstk. right; exact Hx.
    + intros x Hx. destruct (decide (x = e)) as [-> | Hne].
      * apply Hstk. left; reflexivity.
      * rewrite lookup_insert_ne in Hx by congruence. apply Hvis, Hx.
    + intros x o Hx Ho. destruct (decide (o = e)) as [-> | Hoe].
      * rewrite lookup_insert_eq. eauto.
      * rewrite lookup_insert_ne by congruence.
        destruct (decide (x = e)) as [-> | Hne].
        -- destruct Ho as (ob' & He' & Hin).
           assert (ob' = ob) as -> by congruence.
           apply (filter_not_in_nil v (Store.operands ob) o Hf Hin).
        -- rewrite lookup_insert_ne in Hx by congruence.
           apply (Hclosed x o Hx Ho).
    + destruct Hbot as [(stk0 & Heq & Hlt & Hnone) | [Hnil _]];
        [| discriminate Hnil].
      destruct stk0 as [| x stk0]; simpl in Heq; injection Heq as -> ->.
      * right. split; [reflexivity |]. rewrite lookup_insert_eq. eauto.
      * left. exists stk0. split; [reflexivity |].
        inversion Hlt; subst.
        split; [assumption |]. rewrite lookup_insert_ne by lia. exact Hnone.
Qed.
End Invariants.

(** *** The journal of a traced run *)

Lemma memo_snoc {R} (journal : list (call R)) c :
  memo (journal ++ [c]) = <[callee c := returned c]> (memo journal).
Proof. unfold memo. rewrite fold_left_app. reflexivity. Qed.

Lemma memo_entry {R} (journal : list (call R)) :
  forall o x,
    memo journal !! o = Some x ->
    exists j c, journal !! j = Some c /\ callee c = o /\ returned c = x.
Proof.
  induction journal as [| c journal IH] using rev_ind; intros o x Hx.
  - unfold memo in Hx. simpl in Hx. rewrite lookup_empty in Hx. discriminate Hx.
  - rewrite memo_snoc in Hx. destruct (decide (callee c = o)) as [Hc | Hc].
    + rewrite Hc, lookup_insert_eq in Hx. injection Hx as <-.
      exists (List.length journal), c. split; [| auto].
      apply list_lookup_middle. reflexivity.
    + rewrite lookup_insert_ne in Hx by exact Hc.
      destruct (IH o x Hx) as (j & c' & Hj & Hc').
      exists j, c'. split; [| exact Hc'].
      apply lookup_app_l_Some, Hj.
Qed.

Lemma lookup_snoc_inv {A} (l : list A) (x y : A) i :
  (l ++ [x]) !! i = Some y ->
  ((i < List.length l)%nat /\ l !! i = Some y) \/ (i = List.length l /\ y = x).
Proof.
  intros H. destruct (decide (i < List.length l)%nat) as [Hlt | Hge].
  - left. split; [exact Hlt |]. rewrite lookup_app_l in H by exact Hlt. exact H.
  - right. pose proof (lookup_lt_Some _ _ _ H) as Hlen.
    rewrite length_app in Hlen. simpl in Hlen.
    assert (i = List.length l) as -> by lia. split; [reflexivity |].
    rewrite list_lookup_middle in H by reflexivity. congruence.
Qed.

(** Invocations after the operands imply invocations after every
    descendant. *)
Lemma operands_first_postorder {R} (h : Store.store) (journal : list (call R)) :
  (forall i c o,
      journal !! i = Some c -> operand_of h o (callee c) ->
      exists j c', (j < i)%nat /\ journal !! j = Some c' /\ callee c' = o) ->
  postorder h journal.
Proof.
  intros Hop i c d Hi Hd. remember (callee c) as e eqn:He.
  revert i c Hi He. induction Hd as [e o Ho | e o d Ho _ IH]; intros i c Hi ->.
  - apply (Hop i c o Hi Ho).
  - destruct (Hop i c o Hi Ho) as (j & c' & Hj & Hc' & Hcallee).
    destruct (IH j c' Hc' (eq_sym Hcallee)) as (k & c'' & Hk & Hc'' & Hd').
    exists k, c''. split; [lia | auto].
Qed.

Section Traced.
Context {R W : Type}.
Variable h : Store.store.
Variable fn : nat -> list R -> W -> R * W.
Hypothesis Hb : Store.bottom_up h = true.
Variable root : nat.

Lemma journal_invariant_initial (w : W) :
  journal_invariant h fn root (@Store.initial R _ root (w, [])).
Proof.
  unfold journal_invariant, Store.initial; simpl.
  split; [reflexivity |]. split; [| split].
  - intros i c o Hi. rewrite lookup_nil in Hi. discriminate Hi.
  - intros i c Hi. rewrite lookup_nil in Hi. discriminate Hi.
  - discriminate.
Qed.

Lemma journal_invariant_step st st' :
  dag_invariant h root st ->
  journal_invariant h fn root st ->
  loop_step h (traced fn) st st' ->
  journal_invariant h fn root st'.
Proof.
  intros (_ & _ & _ & Hbot) (Hmemo & Hfirst & Hfed & Hlast) Hs.
  destruct Hs as [e stk ob v wl He Hf | e stk ob v wl rs r wl' He Hf Hrs Hfn];
    simpl in *; unfold journal_invariant; simpl.
  - split; [exact Hmemo |]. split; [exact Hfirst |]. split; [exact Hfed |].
    intros Hnil. apply app_eq_nil in Hnil as [_ Hnil]. discriminate Hnil.
  - destruct wl as [w journal]. unfold traced in Hfn. simpl in Hfn.
    destruct (fn e rs w) as [r0 w0] eqn:Hfn0. injection Hfn as <- <-.
    simpl in *. subst v.
    split; [| split; [| split]].
    + symmetry. apply (memo_snoc journal (e, rs, r0)).
    + intros i c o Hi Ho.
      apply lookup_snoc_inv in Hi as [[Hlt Hi] | [-> ->]].
      * destruct (Hfirst i c o Hi Ho) as (j & c' & Hj & Hc' & Hcallee).
        exists j, c'. split; [exact Hj |]. split; [| exact Hcallee].
        apply lookup_app_l_Some, Hc'.
      * destruct Ho as (ob' & He' & Hin). unfold callee in He'. simpl in He'.
        assert (ob' = ob) as -> by congruence.
        destruct (filter_not_in_nil (memo journal) (Store.operands ob) o Hf Hin)
          as [x Hx].
        destruct (memo_entry journal o x Hx) as (j & c' & Hc' & Hcallee & _).
        exists j, c'. split; [apply (lookup_lt_Some _ _ _ Hc') |].
        split; [apply lookup_app_l_Some, Hc' | exact Hcallee].
    + intros i c Hi.
      apply lookup_snoc_inv in Hi as [[Hlt Hi] | [-> ->]].
      * destruct (Hfed i c Hi) as (ob' & He' & Hargs).
        exists ob'. split; [exact He' |].
        rewrite take_app_le by lia. exact Hargs.
      * exists ob. split; [exact He |].
        rewrite take_app_length. exact Hrs.
    + intros ->.
      destruct Hbot as [(stk0 & Heq & _ & _) | [Hnil _]]; [| discriminate Hnil].
      destruct stk0 as [| x stk0]; simpl in Heq.
      * injection Heq as ->.
        exists journal, rs, r0, w. split; [reflexivity |].
        split; [exact Hfn0 |]. apply lookup_insert_eq.
      * injection Heq as _ Heq. destruct stk0; discriminate Heq.
Qed.

Lemma iteration_erase st st1 :
  Store.iteration h (traced fn) st = Some (OK st1) ->
  Store.iteration h fn (erase st) = Some (OK (erase st1)).
Proof.
  destruct st as [s v [w journal]]. unfold Store.iteration, erase. simpl.
  destruct s as [| e stk]; [intros [= <-]; reflexivity |].
  destruct (h !! e) as [ob |]; [| discriminate].
  destruct (List.filter (Store.not_in v) (Store.operands ob)) as [| c cs].
  - destruct (mapM (Store.lookup_visited v) (Store.operands ob)) as [rs | ?];
      [| discriminate].
    unfold traced. simpl. destruct (fn e rs w) as [r w'].
    intros [= <-]. reflexivity.
  - intros [= <-]. reflexivity.
Qed.

Lemma while_stack_erase fuel :
  forall st st',
    Store.while_stack h (traced fn) fuel st = Some (OK st') ->
    Store.while_stack h fn fuel (erase st) = Some (OK (erase st')).
Proof.
  induction fuel as [| fuel IH]; intros st st' Hrun; simpl in *.
  - destruct (Store.stack st); [| discriminate Hrun].
    injection Hrun as <-. reflexivity.
  - destruct (Store.stack st) as [| e stk] eqn:Hstk.
    + injection Hrun as <-. reflexivity.
    + destruct (Store.iteration h (traced fn) st) as [[st1 | ?] |] eqn:Hit;
        simpl in Hrun; try discriminate Hrun.
      rewrite (iteration_erase st st1 Hit). simpl. apply IH, Hrun.
Qed.

(** The traced run from [root]: it ends, and its last frame satisfies the
    invariants. *)
Lemma traced_run (w : W) fuel :
  (root < List.length h)%nat ->
  (bound h root < fuel)%nat ->
  exists st,
    Store.while_stack h (traced fn) fuel (Store.initial root (w, []))
    = Some (OK st) /\
    Store.stack st = [] /\
    dag_invariant h root st /\
    journal_invariant h fn root st.
Proof using Hb.
  intros Hroot Hfuel.
  destruct (while_stack_terminates h (traced fn) Hb fuel
              (Store.initial root (w, []))) as (st & Hrun & Hnil).
  { unfold in_store. simpl. constructor; [exact Hroot | constructor]. }
  { simpl. pose proof (bound_pos h root).
    destruct (ready h (dom (∅ : gmap nat R)) root); lia. }
  exists st. split; [exact Hrun |]. split; [exact Hnil |].
  apply (while_stack_invariant h (traced fn)
           (fun st => dag_invariant h root st /\ journal_invariant h fn root st))
    in Hrun as [[Hd Hj] _].
  - auto.
  - intros st0 st1 [Hd Hj] Hs. split.
    + apply (dag_invariant_step h (traced fn) Hb root st0 st1 Hd Hs).
    + apply (journal_invariant_step st0 st1 Hd Hj Hs).
  - split; [apply dag_invariant_initial | apply journal_invariant_initial].
Qed.
End Traced.

Lemma visited_descendants {R} (h : Store.store) (v : gmap nat R) :
  (forall e o, is_Some (v !! e) -> operand_of h o e -> is_Some (v !! o)) ->
  forall e d, descendant h e d -> is_Some (v !! e) -> is_Some (v !! d).
Proof.
  intros Hclosed e d Hd. induction Hd as [e o Ho | e o d Ho _ IH]; intros He.
  - apply (Hclosed e o He Ho).
  - apply IH, (Hclosed e o He Ho).
Qed.

(** Sample stores: [Add(x, Mul(x, y))] with one object [x] used twice,
    [Add(x, x)] with one object [x] in both operand places, and
    [Add(Symbol("x"), Symbol("x"))] with two objects of equal value. *)
Example postvisitor_samples :
  let shared_below := [Store.OLeaf CSymbol (VStr "x"); Store.OLeaf CSymbol (VStr "y");
                       Store.ONode CMul [0; 1]; Store.ONode CAdd [0; 2]] in
  let shared_twice := [Store.OLeaf CSymbol (VStr "x"); Store.ONode CAdd [0; 0]] in
  let twins := [Store.OLeaf CSymbol (VStr "x"); Store.OLeaf CSymbol (VStr "x");
                Store.ONode CAdd [0; 1]] in
  let count := stateless (fun (_ : nat) (results : list nat) => S (list_sum results)) in
  Store.postvisitor shared_below count 20 3 tt = Some (OK (5, tt)) /\
  Store.postvisitor shared_twice count 20 1 tt = Some (OK (3, tt)) /\
  Store.postvisitor twins count 20 2 tt = Some (OK (3, tt)).
Proof. repeat split. Qed.

(** C1. On every expression built bottom-up from objects of the module,
    tree or DAG, [postvisitor(root, fn)] returns: its value is what the last
    invocation of [fn] returned, and that invocation was made on [root] with
    the results recorded for the operands of [root], in operand order.  Every
    invocation of [fn] received the recorded results of the operands of its
    object, and was made after an invocation on every descendant of that
    object.  The journal is that of [fn] traced, which returns what [fn]
    returns. *)
Theorem postvisitor_postorder {R W} (h : Store.store)
    (fn : nat -> list R -> W -> R * W) (root : nat) (w : W) (fuel : nat) :
  Store.bottom_up h = true ->
  (root < List.length h)%nat ->
  (bound h root < fuel)%nat ->
  exists r w' journal,
    Store.postvisitor h fn fuel root w = Some (OK (r, w')) /\
    Store.postvisitor h (traced fn) fuel root (w, [])
    = Some (OK (r, (w', journal))) /\
    (exists before args ob w0,
        journal = before ++ [(root, args, r)] /\
        h !! root = Some ob /\
        Forall2 (fun o x => memo before !! o = Some x) (Store.operands ob) args /\
        fn root args w0 = (r, w')) /\
    fed_by_operands h journal /\
    postorder h journal.
Proof.
  intros Hb Hroot Hfuel.
  destruct (traced_run h fn Hb root w fuel Hroot Hfuel)
    as (st & Hrun & Hnil & Hdag & Hmemo & Hfirst & Hfed & Hlast).
  destruct (Hlast Hnil) as (before & args & r & w0 & Hj & Hfn & Hr).
  pose proof (while_stack_erase h fn fuel _ _ Hrun) as Hplain.
  destruct st as [s v [w' journal]]. simpl in *. subst s.
  exists r, w', journal.
  split; [| split; [| split; [| split]]].
  - unfold Store.postvisitor.
    change (erase (Store.initial root (w, []))) with (@Store.initial R W root w) in Hplain.
    rewrite Hplain. simpl. unfold Store.lookup_visited. rewrite Hr. reflexivity.
  - unfold Store.postvisitor. rewrite Hrun. simpl.
    unfold Store.lookup_visited. rewrite Hr. reflexivity.
  - exists before, args.
    destruct (Hfed (List.length before) (root, args, r)) as (ob & Hob & Hargs).
    { rewrite Hj. apply list_lookup_middle. reflexivity. }
    exists ob, w0. split; [exact Hj |]. split; [exact Hob |].
    split; [| exact Hfn].
    rewrite Hj, take_app_length in Hargs. exact Hargs.
  - exact Hfed.
  - apply operands_first_postorder, Hfirst.
Qed.

Lemma postvisitor_postorder_witness :
  let h := [Store.OLeaf CSymbol (VStr "x"); Store.OLeaf CSymbol (VStr "y");
            Store.ONode CMul [0; 1]; Store.ONode CAdd [0; 2]] in
  let fn := fun (e : nat) (results : list nat) (calls : nat) =>
              (S (list_sum results), S calls) in
  Store.bottom_up h = true /\ (3 < List.length h)%nat /\ (bound h 3 < 20)%nat /\
  exists r w', Store.postvisitor h fn 20 3 0 = Some (OK (r, w')).
Proof.
  split; [reflexivity |]. split; [simpl; lia |]. split; [vm_compute; lia |].
  destruct (postvisitor_postorder
              [Store.OLeaf CSymbol (VStr "x"); Store.OLeaf CSymbol (VStr "y");
               Store.ONode CMul [0; 1]; Store.ONode CAdd [0; 2]]
              (fun (e : nat) (results : list nat) (calls : nat) =>
                 (S (list_sum results), S calls))
              3 0 20 eq_refl ltac:(simpl; lia) ltac:(vm_compute; lia))
    as (r & w' & _ & H & _).
  exists r, w'. exact H.
Defined.

(** C2 fails on the code: [fn] is invoked twice on an object that is pushed
    twice before it is first visited.  In [Add(x, x)] the object [x] (identity
    0) is both operands of the root (identity 1); a counting [fn] is invoked
    three times for two objects, and the journal shows [x] twice.  In
    [Add(x, Mul(x, y))] the second invocation on [x] comes after the one on
    [Mul(x, y)]. *)
Theorem postvisitor_invokes_shared_operand_twice :
  let fn := fun (e : nat) (results : list unit) (calls : nat) => (tt, S calls) in
  let shared_twice := [Store.OLeaf CSymbol (VStr "x"); Store.ONode CAdd [0; 0]] in
  let shared_below := [Store.OLeaf CSymbol (VStr "x"); Store.OLeaf CSymbol (VStr "y");
                       Store.ONode CMul [0; 1]; Store.ONode CAdd [0; 2]] in
  Store.postvisitor shared_twice fn 20 1 0 = Some (OK (tt, 3)) /\
  option_map (fun out => match out with
                         | OK (_, (_, journal)) => map callee journal
                         | Raise _ => []
                         end)
             (Store.postvisitor shared_twice (traced fn) 20 1 (0, []))
  = Some [0; 0; 1] /\
  option_map (fun out => match out with
                         | OK (_, (_, journal)) => map callee journal
                         | Raise _ => []
                         end)
             (Store.postvisitor shared_below (traced fn) 20 3 (0, []))
  = Some [1; 0; 2; 0; 3].
Proof. repeat split. Qed.

(** C9. The dictionary of [postvisitor] is keyed by object identity.  When
    the loop ends its keys are exactly the identities of the objects of the
    expression, and each of them has an invocation of [fn] in the journal.
    So two objects of the expression with different identities have two keys
    and an invocation each, also when they are equal in class, value and
    operands, while an object reached along several paths has its one key:
    [Add(x, x)] on one object [x] ends with two keys, and
    [Add(Symbol("x"), Symbol("x"))] on two objects with three. *)
Theorem visited_keyed_by_identity {R W} (h : Store.store)
    (fn : nat -> list R -> W -> R * W) (root : nat) (w : W) (fuel : nat) :
  Store.bottom_up h = true ->
  (root < List.length h)%nat ->
  (bound h root < fuel)%nat ->
  exists st,
    Store.while_stack h (traced fn) fuel (Store.initial root (w, []))
    = Some (OK st) /\
    (forall e, is_Some (Store.visited st !! e) <-> node_of_dag h root e) /\
    (forall e, node_of_dag h root e ->
               exists i c, snd (Store.world st) !! i = Some c /\ callee c = e /\
                           Store.visited st !! e = memo (snd (Store.world st)) !! e) /\
    (forall a b,
        node_of_dag h root a -> node_of_dag h root b ->
        a <> b -> h !! a = h !! b ->
        is_Some (Store.visited st !! a) /\ is_Some (Store.visited st !! b) /\
        exists i j ca cb,
          i <> j /\
          snd (Store.world st) !! i = Some ca /\ callee ca = a /\
          snd (Store.world st) !! j = Some cb /\ callee cb = b) /\
    (let count := stateless (fun (_ : nat) (results : list nat) => S (list_sum results)) in
     let keys := fun (hh : Store.store) (top : nat) =>
       match Store.while_stack hh count 20 (Store.initial top tt) with
       | Some (OK st) => size (Store.visited st)
       | _ => 0
       end in
     keys [Store.OLeaf CSymbol (VStr "x"); Store.ONode CAdd [0; 0]] 1 = 2 /\
     keys [Store.OLeaf CSymbol (VStr "x"); Store.OLeaf CSymbol (VStr "x");
           Store.ONode CAdd [0; 1]] 2 = 3).
Proof.
  intros Hb Hroot Hfuel.
  destruct (traced_run h fn Hb root w fuel Hroot Hfuel)
    as (st & Hrun & Hnil & (Hstk & Hvis & Hclosed & Hbot) & Hmemo & Hfirst & Hfed & Hlast).
  exists st. split; [exact Hrun |].
  assert (forall e, node_of_dag h root e -> is_Some (Store.visited st !! e)) as Hall.
  { assert (is_Some (Store.visited st !! root)) as Hr.
    { destruct Hbot as [(stk0 & Heq & _) | [_ Hr]]; [| exact Hr].
      rewrite Hnil in Heq. destruct stk0; discriminate Heq. }
    intros e [-> | Hd]; [exact Hr |].
    apply (visited_descendants h (Store.visited st) Hclosed root e Hd Hr). }
  assert (forall e, node_of_dag h root e ->
                    exists i c, snd (Store.world st) !! i = Some c /\ callee c = e) as Hcalls.
  { intros e He. destruct (Hall e He) as [x Hx]. rewrite Hmemo in Hx.
    destruct (memo_entry _ e x Hx) as (i & c & Hi & Hc & _). eauto. }
  split; [| split; [| split]].
  - intros e. split; [apply Hvis | apply Hall].
  - intros e He. destruct (Hcalls e He) as (i & c & Hi & Hc).
    exists i, c. rewrite Hmemo. auto.
  - intros a b Ha Hb' Hne _.
    split; [apply Hall, Ha |]. split; [apply Hall, Hb' |].
    destruct (Hcalls a Ha) as (i & ca & Hi & Hca).
    destruct (Hcalls b Hb') as (j & cb & Hj & Hcb).
    exists i, j, ca, cb. split; [| auto].
    intros ->. congruence.
  - split; vm_compute; reflexivity.
Qed.

Lemma visited_keyed_by_identity_witness :
  let h := [Store.OLeaf CSymbol (VStr "x"); Store.OLeaf CSymbol (VStr "x");
            Store.ONode CAdd [0; 1]] in
  let fn := fun (e : nat) (results : list nat) (calls : nat) =>
              (S (list_sum results), S calls) in
  Store.bottom_up h = true /\ (2 < List.length h)%nat /\ (bound h 2 < 20)%nat /\
  exists st,
    Store.while_stack h (traced fn) 20 (Store.initial 2 (0, [])) = Some (OK st) /\
    is_Some (Store.visited st !! 0) /\ is_Some (Store.visited st !! 1).
Proof.
  split; [reflexivity |]. split; [simpl; lia |]. split; [vm_compute; lia |].
  destruct (visited_keyed_by_identity
              [Store.OLeaf CSymbol (VStr "x"); Store.OLeaf CSymbol (VStr "x");
               Store.ONode CAdd [0; 1]]
              (fun (e : nat) (results : list nat) (calls : nat) =>
                 (S (list_sum results), S calls))
              2 0 20 eq_refl ltac:(simpl; lia) ltac:(vm_compute; lia))
    as (st & Hrun & _ & _ & Htwins & _).
  exists st. split; [exact Hrun |].
  destruct (Htwins 0 1) as (H0 & H1 & _).
  - right. apply descendant_operand. eexists. split; [reflexivity |]. left. reflexivity.
  - right. apply descendant_operand. eexists. split; [reflexivity |].
    right. left. reflexivity.
  - discriminate.
  - reflexivity.
  - split; assumption.
Defined.


(** ** Object store: differentiation *)

Lemma all_some_Forall2 {A B} (f : A -> option B) l :
  forall ts, Store.all_some (map f l) = Some ts <-> Forall2 (fun x t => f x = Some t) l ts.
Proof.
  induction l as [| x l IH]; intros ts; simpl.
  - split.
    + intros [= <-]. constructor.
    + intros H. inversion H. reflexivity.
  - destruct (f x) as [b |] eqn:Hfx.
    + destruct (Store.all_some (map f l)) as [bs |] eqn:Hl; simpl.
      * split.
        -- intros [= <-]. constructor; [exact Hfx | apply IH; reflexivity].
        -- intros H. inversion H as [| ? t ? ts' Hx Hrest]; subst.
           apply IH in Hrest. congruence.
      * split; [discriminate |].
        intros H. inversion H as [| ? t ? ts' Hx Hrest]; subst.
        apply IH in Hrest. discriminate Hrest.
    + split; [discriminate |].
      intros H. inversion H; subst. congruence.
Qed.

Lemma tree_of_mono n :
  forall (h : Store.store) e t,
    Store.tree_of n h e = Some t ->
    forall m k, (n <= m)%nat -> Store.tree_of m (h ++ k) e = Some t.
Proof.
  induction n as [| n IH]; intros h e t Ht m k Hle; [discriminate Ht |].
  destruct m as [| m]; [lia |]. simpl in *.
  destruct (h !! e) as [ob |] eqn:He; [| discriminate Ht].
  rewrite (lookup_app_l_Some h k e ob He).
  destruct ob as [c v | c ops]; [exact Ht |].
  destruct (Store.all_some (map (Store.tree_of n h) ops)) as [ts |] eqn:Hts;
    [| discriminate Ht].
  apply all_some_Forall2 in Hts.
  assert (Store.all_some (map (Store.tree_of m (h ++ k)) ops) = Some ts) as ->; [| exact Ht].
  apply all_some_Forall2.
  eapply Forall2_impl; [exact Hts |].
  intros o t' Ho. apply IH; [exact Ho | lia].
Qed.

Lemma denotes_extends h h' e t : extends h' h -> denotes h e t -> denotes h' e t.
Proof.
  intros [k ->] [n Hn]. exists n. apply (tree_of_mono n h e t Hn n k). lia.
Qed.

Lemma denotes_leaf (h : Store.store) e c v :
  h !! e = Some (Store.OLeaf c v) -> denotes h e (Leaf c v).
Proof. intros He. exists 1. simpl. rewrite He. reflexivity. Qed.

Lemma denotes_node2 (h : Store.store) e c a b ta tb :
  h !! e = Some (Store.ONode c [a; b]) ->
  denotes h a ta -> denotes h b tb -> denotes h e (Node c [ta; tb]).
Proof.
  intros He [n Ha] [m Hm]. exists (S (n + m)). simpl. rewrite He. simpl.
  rewrite <- (app_nil_r h).
  rewrite (tree_of_mono n h a ta Ha (n + m) []) by lia.
  rewrite (tree_of_mono m h b tb Hm (n + m) []) by lia.
  reflexivity.
Qed.

Lemma extends_refl (h : Store.store) : extends h h.
Proof. exists []. symmetry. apply app_nil_r. Qed.

Lemma extends_trans (h1 h2 h3 : Store.store) :
  extends h3 h2 -> extends h2 h1 -> extends h3 h1.
Proof. intros [k ->] [k' ->]. exists (k' ++ k). symmetry. apply app_assoc. Qed.

Lemma extends_snoc (h : Store.store) ob : extends (h ++ [ob]) h.
Proof. exists [ob]. reflexivity. Qed.

Lemma extends_length (h h' : Store.store) :
  extends h' h -> (List.length h <= List.length h')%nat.
Proof. intros [k ->]. rewrite length_app. lia. Qed.

Lemma extends_lookup (h h' : Store.store) e ob :
  extends h' h -> h !! e = Some ob -> h' !! e = Some ob.
Proof. intros [k ->]. apply lookup_app_l_Some. Qed.

Lemma bottom_up_from_snoc i (h : Store.store) ob :
  Store.bottom_up_from i (h ++ [ob])
  = Store.bottom_up_from i h
    && forallb (fun o => Nat.ltb o (i + List.length h)) (Store.operands ob).
Proof.
  revert i. induction h as [| x h IH]; intros i; simpl.
  - rewrite Nat.add_0_r, andb_true_r. reflexivity.
  - rewrite IH, Nat.add_succ_r. simpl. rewrite andb_assoc. reflexivity.
Qed.

Lemma bottom_up_new (h : Store.store) ob :
  Store.bottom_up h = true ->
  Forall (fun o => (o < List.length h)%nat) (Store.operands ob) ->
  Store.bottom_up (h ++ [ob]) = true.
Proof.
  unfold Store.bottom_up. intros Hb Hops. rewrite bottom_up_from_snoc, Hb. simpl.
  apply forallb_forall. intros o Ho. apply Nat.ltb_lt.
  rewrite Forall_forall in Hops. apply Hops, list_elem_of_In, Ho.
Qed.

Lemma denotes_lt (h : Store.store) e t : denotes h e t -> (e < List.length h)%nat.
Proof.
  intros [[| n] Hn]; [discriminate Hn |]. simpl in Hn.
  destruct (h !! e) as [ob |] eqn:He; [| discriminate Hn].
  apply (lookup_lt_Some _ _ _ He).
Qed.

Lemma alloc_leaf (h : Store.store) c v :
  Store.bottom_up h = true ->
  Store.bottom_up (h ++ [Store.OLeaf c v]) = true /\
  denotes (h ++ [Store.OLeaf c v]) (List.length h) (Leaf c v).
Proof.
  intros Hb. split.
  - apply bottom_up_new; [exact Hb | constructor].
  - apply denotes_leaf, list_lookup_middle. reflexivity.
Qed.

Lemma alloc_node2 (h : Store.store) c a b ta tb :
  Store.bottom_up h = true ->
  denotes h a ta -> denotes h b tb ->
  Store.bottom_up (h ++ [Store.ONode c [a; b]]) = true /\
  denotes (h ++ [Store.ONode c [a; b]]) (List.length h) (Node c [ta; tb]).
Proof.
  intros Hb Ha Hb'. split.
  - apply bottom_up_new; [exact Hb |]. simpl.
    repeat constructor; eapply denotes_lt; eassumption.
  - apply (denotes_node2 _ _ c a b).
    + apply list_lookup_middle. reflexivity.
    + apply (denotes_extends h); [apply extends_snoc | exact Ha].
    + apply (denotes_extends h); [apply extends_snoc | exact Hb'].
Qed.

Lemma sbind_unfold {A B} (m : Store.state A) (k : A -> Store.state B) h :
  Store.sbind m k h
  = match m h with
    | Some (OK (a, h')) => k a h'
    | Some (Raise e) => Some (Raise e)
    | None => None
    end.
Proof. unfold Store.sbind, Store.obind. destruct (m h) as [[[a h'] | e] |]; reflexivity. Qed.

Lemma tree_of_node_inv n (h : Store.store) e c ops t :
  h !! e = Some (Store.ONode c ops) ->
  Store.tree_of (S n) h e = Some t ->
  exists ts, t = Node c ts /\ Forall2 (fun o t' => denotes h o t') ops ts.
Proof.
  intros He Ht. simpl in Ht. rewrite He in Ht.
  destruct (Store.all_some (map (Store.tree_of n h) ops)) as [ts |] eqn:Hts;
    [| discriminate Ht].
  injection Ht as <-. exists ts. split; [reflexivity |].
  apply all_some_Forall2 in Hts.
  eapply Forall2_impl; [exact Hts |]. intros o t' Ho. exists n. exact Ho.
Qed.

Lemma Number_int_new z (h : Store.store) :
  Store.Number (VInt z) h
  = Some (OK (List.length h, h ++ [Store.OLeaf CNumber (VInt z)])).
Proof. reflexivity. Qed.

(** Running the store monad symbolically. *)
Ltac exec :=
  repeat first
    [ rewrite sbind_unfold
    | rewrite Number_int_new
    | progress cbn [Store.lift getitem nth_error Store.Add Store.Sub Store.Mul
                    Store.Div Store.Pow Store.new] ].

Ltac solve_extends :=
  solve [ repeat first
            [ apply extends_refl
            | assumption
            | eapply extends_trans; [apply extends_snoc |]
            | match goal with
              | H : extends ?h2 ?h1 |- extends ?h2 _ => apply (extends_trans _ h1 _ H)
              end ] ].

Ltac solve_denotes :=
  match goal with
  | H : denotes ?h ?e ?t |- denotes ?h' ?e ?t =>
      apply (denotes_extends h h' e t); [solve_extends | exact H]
  | |- denotes (?h ++ [Store.ONode ?c [?a; ?b]]) (List.length ?h) _ =>
      eapply (denotes_node2 _ _ c a b);
      [apply list_lookup_middle; reflexivity | solve_denotes | solve_denotes]
  | |- denotes (?h ++ [Store.OLeaf ?c ?v]) (List.length ?h) _ =>
      apply denotes_leaf, list_lookup_middle; reflexivity
  | |- denotes (?h ++ [_]) _ _ =>
      apply (denotes_extends h); [apply extends_snoc | solve_denotes]
  end.

Ltac length_facts :=
  repeat match goal with
         | H : denotes _ _ _ |- _ => apply denotes_lt in H
         | H : extends _ _ |- _ => apply extends_length in H
         end.

Ltac solve_bottom_up :=
  length_facts;
  repeat (apply bottom_up_new;
          [| repeat constructor; rewrite ?length_app; simpl; lia]);
  assumption.

(** The end of a rule: the allocations are done and the result is read off. *)
Ltac finish :=
  exec; eexists _, _; split; [reflexivity |];
  split; [solve_extends |];
  split; [solve_bottom_up |];
  split; [length_facts; rewrite ?length_app; simpl; lia | solve_denotes].

(** The two recursive calls of a rule, or the exception that ends it. *)
Ltac two_derivatives IH h var Hb Hops Hts :=
  let l := fresh "l" in let tl := fresh "tl" in
  let r := fresh "r" in let tr := fresh "tr" in
  let Hl := fresh "Hl" in let Hr := fresh "Hr" in
  let IHl := fresh "IHl" in let IHr := fresh "IHr" in
  destruct Hts as [| l tl ? ? Hl Hts]; [reflexivity |];
  exec;
  pose proof (IH h l tl var Hb Hl (Hops l (or_introl eq_refl))) as IHl;
  simpl;
  destruct (differentiate tl var) as [? | ?]; simpl;
  [| rewrite IHl; reflexivity];
  destruct IHl as (? & ? & -> & ? & ? & ? & ?);
  destruct Hts as [| r tr ? ? Hr Hts]; [reflexivity |];
  exec;
  match goal with
  | Hb1 : Store.bottom_up ?h1 = true, Hext1 : extends ?h1 h |- context [Store.differentiate _ r var ?h1] =>
      pose proof (IH h1 r tr var Hb1 (denotes_extends h h1 r tr Hext1 Hr)
                    (Hops r (or_intror (or_introl eq_refl)))) as IHr;
      destruct (differentiate tr var) as [? | ?]; simpl;
      [| rewrite IHr; reflexivity]
  end;
  destruct IHr as (? & ? & -> & ? & ? & ? & ?).

Lemma differentiate_refines fuel :
  forall (h : Store.store) e t var,
    Store.bottom_up h = true -> denotes h e t -> (e < fuel)%nat ->
    match differentiate t var with
    | OK t' =>
        exists d h',
          Store.differentiate fuel e var h = Some (OK (d, h')) /\
          extends h' h /\ Store.bottom_up h' = true /\
          (List.length h <= d)%nat /\ denotes h' d t'
    | Raise x => Store.differentiate fuel e var h = Some (Raise x)
    end.
Proof.
  induction fuel as [| fuel IH]; intros h e t var Hb [n Hn] Hfuel; [lia |].
  destruct n as [| n]; [discriminate Hn |].
  pose proof Hn as Hn'. simpl in Hn'.
  destruct (h !! e) as [ob |] eqn:He; [| discriminate Hn'].
  cbn [Store.differentiate]. rewrite sbind_unfold. unfold Store.deref. rewrite He.
  destruct ob as [c v | c ops].
  - injection Hn' as <-.
    destruct c; simpl; [reflexivity | finish |].
    destruct (value_eq_str v var); simpl; finish.
  - clear Hn'. destruct (tree_of_node_inv n h e c ops t He Hn) as (ts & -> & Hts).
    assert (forall o, In o ops -> (o < fuel)%nat) as Hops.
    { intros o Ho. assert (o < e)%nat; [| lia].
      apply (operand_lt h o e Hb). exists (Store.ONode c ops). auto. }
    clear He Hn.
    destruct c; try reflexivity.
    + two_derivatives IH h var Hb Hops Hts. finish.
    + two_derivatives IH h var Hb Hops Hts. finish.
    + two_derivatives IH h var Hb Hops Hts. finish.
    + two_derivatives IH h var Hb Hops Hts. finish.
    + destruct Hts as [| l tl ? ? Hl Hts]; [reflexivity |].
      destruct Hts as [| r tr ? ? Hr Hts]; [reflexivity |].
      simpl. finish.
Qed.

(** X10. On a store built bottom-up, [differentiate] returns on every
    well-formed expression, shared operands or not, with a new object that
    stands for the tree of the rule table applied to the unfolding of the
    input. *)
Lemma differentiate_store_total fuel (h : Store.store) e t var :
  Store.bottom_up h = true -> denotes h e t -> well_formed t = true ->
  (e < fuel)%nat ->
  exists d h',
    Store.differentiate fuel e var h = Some (OK (d, h')) /\
    extends h' h /\ (List.length h <= d)%nat /\ denotes h' d (derivative var t).
Proof.
  intros Hb Hd Hw Hfuel.
  pose proof (differentiate_refines fuel h e t var Hb Hd Hfuel) as H.
  rewrite (differentiate_well_formed var t Hw) in H.
  destruct H as (d & h' & Hrun & Hext & _ & Hlen & Hden).
  exists d, h'. auto.
Qed.

(** Inverting a successful run of the store monad. *)
Ltac invert_run IH H :=
  repeat first
    [ rewrite sbind_unfold in H
    | rewrite Number_int_new in H
    | progress cbn [Store.lift getitem nth_error Store.Add Store.Sub Store.Mul
                    Store.Div Store.Pow Store.new Store.raise] in H
    | match type of H with
      | context [match Store.differentiate ?f ?o ?v ?hh with _ => _ end] =>
          let E := fresh "E" in
          destruct (Store.differentiate f o v hh) as [[[? ?] | ?] |] eqn:E;
          try discriminate H;
          apply IH in E as [? ?]
      end ].

(** Whatever [differentiate] returns is an object constructed by the call,
    in a store that keeps every earlier object. *)
Lemma differentiate_allocates fuel :
  forall e var (h : Store.store) d h',
    Store.differentiate fuel e var h = Some (OK (d, h')) ->
    extends h' h /\ (List.length h <= d < List.length h')%nat.
Proof.
  induction fuel as [| fuel IH]; intros e var h d h' H; [discriminate H |].
  cbn [Store.differentiate] in H. rewrite sbind_unfold in H.
  unfold Store.deref in H.
  destruct (h !! e) as [[c v | c ops] |]; [| | discriminate H].
  - destruct c; [discriminate H | |]; [| destruct (value_eq_str v var)];
      invert_run IH H; injection H as <- <-;
      (split; [solve_extends | rewrite ?length_app; simpl; lia]).
  - destruct c; try discriminate H;
      destruct ops as [| l [| r ops]];
      invert_run IH H; try discriminate H;
      injection H as <- <-;
      (split; [solve_extends | length_facts; rewrite ?length_app; simpl; lia]).
Qed.

Ltac solve_lookup :=
  first [ apply list_lookup_middle; reflexivity
        | apply lookup_app_l_Some; solve_lookup ].

Ltac finish_shares :=
  repeat (split; [solve_lookup |]);
  length_facts; rewrite ?length_app; simpl; lia.

(** What a returning call on an operator with two operands has done: every
    object of the store before the call is where it was and as it was, the
    result is a new object, and the results of the [Mul], [Div] and [Pow]
    rules hold the operand identities of the input. *)
Lemma shares_operands_of_run fuel (h : Store.store) e var c l r d h' :
  Store.bottom_up h = true ->
  h !! e = Some (Store.ONode c [l; r]) ->
  Store.differentiate fuel e var h = Some (OK (d, h')) ->
  (forall i ob, h !! i = Some ob -> h' !! i = Some ob) /\
  (is_Some (h !! l) /\ is_Some (h !! r)) /\
  (List.length h <= d < List.length h')%nat /\
  match c with
  | CMul =>
      exists dl dr a b,
        h' !! d = Some (Store.ONode CAdd [a; b]) /\
        h' !! a = Some (Store.ONode CMul [dl; r]) /\
        h' !! b = Some (Store.ONode CMul [l; dr]) /\
        (List.length h <= dl)%nat /\ (List.length h <= dr)%nat /\
        (List.length h <= a)%nat /\ (List.length h <= b)%nat
  | CDiv =>
      exists dl dr num den a b two,
        h' !! d = Some (Store.ONode CDiv [num; den]) /\
        h' !! num = Some (Store.ONode CSub [a; b]) /\
        h' !! a = Some (Store.ONode CMul [r; dl]) /\
        h' !! b = Some (Store.ONode CMul [l; dr]) /\
        h' !! den = Some (Store.ONode CPow [r; two]) /\
        h' !! two = Some (Store.OLeaf CNumber (VInt 2%Z)) /\
        (List.length h <= dl)%nat /\ (List.length h <= dr)%nat /\
        (List.length h <= num)%nat /\ (List.length h <= den)%nat /\
        (List.length h <= a)%nat /\ (List.length h <= b)%nat /\
        (List.length h <= two)%nat
  | CPow =>
      exists p s one,
        h' !! d = Some (Store.ONode CMul [r; p]) /\
        h' !! p = Some (Store.ONode CPow [l; s]) /\
        h' !! s = Some (Store.ONode CSub [r; one]) /\
        h' !! one = Some (Store.OLeaf CNumber (VInt 1%Z)) /\
        (List.length h <= p)%nat /\ (List.length h <= s)%nat /\
        (List.length h <= one)%nat
  | CAdd | CSub =>
      exists dl dr,
        h' !! d = Some (Store.ONode c [dl; dr]) /\
        (List.length h <= dl)%nat /\ (List.length h <= dr)%nat
  | CExpression | COperator => True
  end.
Proof.
  intros Hb He H.
  pose proof (differentiate_allocates fuel e var h d h' H) as [Hext Hrange].
  split; [intros i ob; apply extends_lookup, Hext |].
  split.
  { split; apply lookup_lt_is_Some_2.
    - assert (l < e)%nat by (apply (operand_lt h l e Hb); eexists; split; [exact He | left; reflexivity]).
      apply lookup_lt_Some in He. lia.
    - assert (r < e)%nat by (apply (operand_lt h r e Hb); eexists; split; [exact He | right; left; reflexivity]).
      apply lookup_lt_Some in He. lia. }
  split; [exact Hrange |].
  destruct fuel as [| fuel]; [discriminate H |].
  cbn [Store.differentiate] in H. rewrite sbind_unfold in H.
  unfold Store.deref in H. rewrite He in H. clear Hext Hrange.
  destruct c; try exact I;
    invert_run (differentiate_allocates fuel) H; injection H as <- <-.
  - do 2 eexists. finish_shares.
  - do 2 eexists. finish_shares.
  - do 4 eexists. finish_shares.
  - do 7 eexists. finish_shares.
  - do 3 eexists. finish_shares.
Qed.

(** A well-formed expression in a store built bottom-up is differentiated
    to a new object that stands for the tree of the rule table. *)
Lemma differentiate_store_run fuel (h : Store.store) e t var :
  Store.bottom_up h = true -> denotes h e t -> well_formed t = true ->
  (e < fuel)%nat ->
  exists d h',
    Store.differentiate fuel e var h = Some (OK (d, h')) /\
    denotes h' d (derivative var t).
Proof.
  intros Hb Hd Hw Hfuel.
  pose proof (differentiate_refines fuel h e t var Hb Hd Hfuel) as H.
  rewrite (differentiate_well_formed var t Hw) in H.
  destruct H as (d & h' & Hrun & _ & _ & _ & Hden).
  exists d, h'. auto.
Qed.

(** C10. [differentiate] shares the operands of its input with its result
    and updates nothing.  On an operator with two operands that stands for a
    well-formed expression, in a store built bottom-up, the call returns, and
    its result stands for the tree of the rule table.  Every object of the
    store before the call is in the store after it, where it was and as it
    was, and the result is a new object.  For [Mul(l, r)] the result is
    [Add(a, b)] with [a = Mul(dl, r)] and [b = Mul(l, dr)]; for [Div(l, r)]
    it is [Div(Sub(a, b), Pow(r, two))] with [a = Mul(r, dl)] and
    [b = Mul(l, dr)]; for [Pow(l, r)] it is [Mul(r, Pow(l, Sub(r, one)))]: in
    each, [l] and [r] are the very identities held by the input, which still
    name the objects they named.  The results for [Add] and [Sub] hold the two
    new derivatives only. *)
Theorem differentiate_shares_operands fuel (h : Store.store) e var c l r t :
  Store.bottom_up h = true ->
  h !! e = Some (Store.ONode c [l; r]) ->
  denotes h e t ->
  well_formed t = true ->
  (e < fuel)%nat ->
  exists d h',
    Store.differentiate fuel e var h = Some (OK (d, h')) /\
    denotes h' d (derivative var t) /\
    (forall i ob, h !! i = Some ob -> h' !! i = Some ob) /\
    (is_Some (h !! l) /\ is_Some (h !! r)) /\
    (List.length h <= d < List.length h')%nat /\
    match c with
    | CMul =>
        exists dl dr a b,
          h' !! d = Some (Store.ONode CAdd [a; b]) /\
          h' !! a = Some (Store.ONode CMul [dl; r]) /\
          h' !! b = Some (Store.ONode CMul [l; dr]) /\
          (List.length h <= dl)%nat /\ (List.length h <= dr)%nat /\
          (List.length h <= a)%nat /\ (List.length h <= b)%nat
    | CDiv =>
        exists dl dr num den a b two,
          h' !! d = Some (Store.ONode CDiv [num; den]) /\
          h' !! num = Some (Store.ONode CSub [a; b]) /\
          h' !! a = Some (Store.ONode CMul [r; dl]) /\
          h' !! b = Some (Store.ONode CMul [l; dr]) /\
          h' !! den = Some (Store.ONode CPow [r; two]) /\
          h' !! two = Some (Store.OLeaf CNumber (VInt 2%Z)) /\
          (List.length h <= dl)%nat /\ (List.length h <= dr)%nat /\
          (List.length h <= num)%nat /\ (List.length h <= den)%nat /\
          (List.length h <= a)%nat /\ (List.length h <= b)%nat /\
          (List.length h <= two)%nat
    | CPow =>
        exists p s one,
          h' !! d = Some (Store.ONode CMul [r; p]) /\
          h' !! p = Some (Store.ONode CPow [l; s]) /\
          h' !! s = Some (Store.ONode CSub [r; one]) /\
          h' !! one = Some (Store.OLeaf CNumber (VInt 1%Z)) /\
          (List.length h <= p)%nat /\ (List.length h <= s)%nat /\
          (List.length h <= one)%nat
    | CAdd | CSub =>
        exists dl dr,
          h' !! d = Some (Store.ONode c [dl; dr]) /\
          (List.length h <= dl)%nat /\ (List.length h <= dr)%nat
    | CExpression | COperator => True
    end.
Proof.
  intros Hb He Hden Hw Hfuel.
  destruct (differentiate_store_run fuel h e t var Hb Hden Hw Hfuel)
    as (d & h' & Hrun & Hd).
  exists d, h'. split; [exact Hrun |]. split; [exact Hd |].
  apply (shares_operands_of_run fuel h e var c l r d h' Hb He Hrun).
Qed.

Lemma differentiate_shares_operands_witness :
  let h := [Store.OLeaf CSymbol (VStr "x"); Store.OLeaf CSymbol (VStr "y");
            Store.ONode CDiv [0; 1]] in
  let t := Div (Leaf CSymbol (VStr "x")) (Leaf CSymbol (VStr "y")) in
  Store.bottom_up h = true /\
  h !! 2 = Some (Store.ONode CDiv [0; 1]) /\
  denotes h 2 t /\ well_formed t = true /\ (2 < 3)%nat /\
  exists d h' num den a b dl dr,
    Store.differentiate 3 2 "x" h = Some (OK (d, h')) /\
    h' !! d = Some (Store.ONode CDiv [num; den]) /\
    h' !! num = Some (Store.ONode CSub [a; b]) /\
    h' !! a = Some (Store.ONode CMul [1; dl]) /\
    h' !! b = Some (Store.ONode CMul [0; dr]).
Proof.
  split; [reflexivity |]. split; [reflexivity |].
  split; [exists 2; reflexivity |]. split; [reflexivity |]. split; [lia |].
  destruct (differentiate_shares_operands 3
              [Store.OLeaf CSymbol (VStr "x"); Store.OLeaf CSymbol (VStr "y");
               Store.ONode CDiv [0; 1]]
              2 "x" CDiv 0 1
              (Div (Leaf CSymbol (VStr "x")) (Leaf CSymbol (VStr "y")))
              eq_refl eq_refl (ex_intro _ 2 eq_refl) eq_refl ltac:(lia))
    as (d & h' & Hrun & _ & _ & _ & _ & dl & dr & num & den & a & b & two
        & H1 & H2 & H3 & H4 & _).
  exists d, h', num, den, a, b, dl, dr. auto.
Defined.

(** A shared operand is differentiated once per use: the two operands of
    [Add(x, x)] are one object, and the result holds two new objects. *)
Example differentiate_does_not_memoize :
  Store.differentiate 3 1 "x"
    [Store.OLeaf CSymbol (VStr "x"); Store.ONode CAdd [0; 0]]
  = Some (OK (4, [Store.OLeaf CSymbol (VStr "x"); Store.ONode CAdd [0; 0];
                  Store.OLeaf CNumber (VInt 1%Z); Store.OLeaf CNumber (VInt 1%Z);
                  Store.ONode CAdd [2; 3]])).
Proof. reflexivity. Qed.

(** ** Object store: the visitor on a function without state *)

Lemma mapM_pointwise {A B} (g g' : A -> result B) l :
  (forall a b, In a l -> g a = OK b -> g' a = OK b) ->
  forall bs, mapM g l = OK bs -> mapM g' l = OK bs.
Proof.
  induction l as [| a l IH]; intros Hgg' bs H; simpl in *; [exact H |].
  destruct (g a) as [b |] eqn:Ha; simpl in H; [| discriminate H].
  rewrite (Hgg' a b (or_introl eq_refl) Ha). simpl.
  destruct (mapM g l) as [bs' |] eqn:Hl; simpl in H; [| discriminate H].
  rewrite (IH (fun a' b' Hin => Hgg' a' b' (or_intror Hin)) bs' eq_refl).
  exact H.
Qed.

Lemma Forall2_impl_In {A B} (P Q : A -> B -> Prop) l k :
  Forall2 P l k -> (forall a b, In a l -> P a b -> Q a b) -> Forall2 Q l k.
Proof.
  induction 1 as [| a b l k Hab _ IH]; intros HPQ; constructor.
  - apply HPQ; [left; reflexivity | exact Hab].
  - apply IH. intros a' b' Hin. apply HPQ. right. exact Hin.
Qed.

Lemma mapM_of_Forall2 {A B} (g : A -> result B) l bs :
  Forall2 (fun a b => g a = OK b) l bs -> mapM g l = OK bs.
Proof.
  induction 1 as [| a b l bs Ha _ IH]; simpl; [reflexivity |].
  rewrite Ha, IH. reflexivity.
Qed.

Lemma fold_mono {R} (f : nat -> list R -> R) (h : Store.store) n :
  forall e x m, fold f n h e = Some x -> (n <= m)%nat -> fold f m h e = Some x.
Proof.
  induction n as [| n IH]; intros e x m H Hle; [discriminate H |].
  destruct m as [| m]; [lia |]. simpl in *.
  destruct (h !! e) as [ob |]; [| discriminate H].
  destruct (mapM _ (Store.operands ob)) as [rs |] eqn:Hrs in H; [| discriminate H].
  erewrite mapM_pointwise; [exact H | | exact Hrs].
  intros o r _ Ho. simpl in Ho.
  destruct (fold f n h o) as [y |] eqn:Hy; [| discriminate Ho].
  rewrite (IH o y m Hy) by lia. exact Ho.
Qed.

(** X9. With a function [f] that has no state, [postvisitor] returns the
    recursive fold of [f] over the expression, [f] of the root and of the
    folds of its operands in operand order, on expressions with shared
    operands too: the repeated invocations do not change the result. *)
Lemma postvisitor_stateless_fold {R} (h : Store.store) (f : nat -> list R -> R)
    (root fuel : nat) :
  Store.bottom_up h = true ->
  (root < List.length h)%nat ->
  (bound h root < fuel)%nat ->
  exists r,
    fold f (S root) h root = Some r /\
    Store.postvisitor h (stateless f) fuel root tt = Some (OK (r, tt)).
Proof.
  intros Hb Hroot Hfuel.
  destruct (while_stack_terminates h (stateless f) Hb fuel (Store.initial root tt))
    as (st & Hrun & Hnil).
  { unfold in_store. simpl. constructor; [exact Hroot | constructor]. }
  { simpl. pose proof (bound_pos h root).
    destruct (ready h (dom (∅ : gmap nat R)) root); lia. }
  pose proof Hrun as Hinv.
  apply (while_stack_invariant h (stateless f)
           (fun st => dag_invariant h root st /\
                      forall n x, Store.visited st !! n = Some x ->
                                  fold f (S n) h n = Some x))
    in Hinv as [[(_ & _ & _ & Hbot) Hfold] _].
  - destruct Hbot as [(stk0 & Heq & _) | [_ [r Hr]]].
    { rewrite Hnil in Heq. destruct stk0; discriminate Heq. }
    exists r. split; [apply Hfold, Hr |].
    unfold Store.postvisitor. rewrite Hrun. simpl.
    unfold Store.lookup_visited. rewrite Hr. destruct (Store.world st). reflexivity.
  - intros st0 st1 [Hd Hf] Hs. split.
    + apply (dag_invariant_step h (stateless f) Hb root st0 st1 Hd Hs).
    + destruct Hs as [e stk ob v w He Hfl | e stk ob v w rs r w' He Hfl Hrs Hfn];
        simpl in *; [exact Hf |].
      intros n x Hx. destruct (decide (n = e)) as [-> | Hne].
      * rewrite lookup_insert_eq in Hx. injection Hx as <-.
        unfold stateless in Hfn. injection Hfn as <- _.
        simpl. rewrite He.
        rewrite (mapM_of_Forall2 _ (Store.operands ob) rs); [reflexivity |].
        apply (Forall2_impl_In _ _ _ _ Hrs).
        intros o y Hin Hy. simpl in Hy.
        assert (o < e)%nat as Hlt
          by (apply (operand_lt h o e Hb); exists ob; auto).
        rewrite (fold_mono f h (S o) o y e (Hf o y Hy)) by lia.
        reflexivity.
      * rewrite lookup_insert_ne in Hx by congruence. apply (Hf n x Hx).
  - split; [apply dag_invariant_initial |].
    intros n x Hx. simpl in Hx. rewrite lookup_empty in Hx. discriminate Hx.
Qed.

(** * Further properties *)

(** ** Rendering *)

Lemma mapM_format_outcome (f : expression -> result string) (g : expression -> bool)
    (P : exn -> Prop) operands :
  Forall (fun o => match f o with
                   | OK _ => g o = true
                   | Raise x => g o = false /\ P x
                   end) operands ->
  match mapM f operands with
  | OK _ => forallb g operands = true
  | Raise x => forallb g operands = false /\ P x
  end.
Proof.
  induction 1 as [| o os Ho _ IH]; simpl; [reflexivity |].
  destruct (f o) as [s | x]; simpl.
  - rewrite Ho. simpl. destruct (mapM f os) as [ss | y]; simpl; exact IH.
  - destruct Ho as [-> HP]. simpl. auto.
Qed.

Lemma precedence_outcome (o : expression) :
  match precedence o with
  | OK _ => has_precedence o = true
  | Raise x => has_precedence o = false /\ rendering_error x
  end.
Proof.
  destruct o as [lc v | [] os]; simpl; try reflexivity.
  split; [reflexivity | left; reflexivity].
Qed.

(** What [str] does, read off the tree. *)
Lemma str_outcome (builtin_str : value -> string) (object_str : string)
    (e : expression) :
  match str builtin_str object_str e with
  | OK _ => renderable e = true
  | Raise x => renderable e = false /\ rendering_error x
  end.
Proof.
  induction e as [c v | c operands IH] using expr_nested_ind.
  - cbn [str renderable]. destruct v as [| [] | z | | |]; try reflexivity.
    cbn [str_value value_renders]. unfold str_int.
    destruct (N.ltb int_max_str_digits (int_digits z)); simpl;
      [split; [reflexivity | right; reflexivity] | reflexivity].
  - cbn [str renderable].
    destruct (node_precedence c) as [p |] eqn:Hp;
      [| destruct (symbol c); reflexivity].
    assert (exists sym, symbol c = Some sym) as [sym ->]
      by (destruct c; try discriminate Hp; eexists; reflexivity).
    pose proof (mapM_format_outcome
                  (format_operand (str builtin_str object_str) p)
                  (fun o => has_precedence o && renderable o)
                  rendering_error operands) as H.
    destruct (mapM (format_operand (str builtin_str object_str) p) operands)
      as [ss | x]; cbn [bind]; apply H; clear H;
      (eapply Forall_impl; [exact IH |]);
      intros o Ho; cbv beta in Ho; unfold format_operand;
      pose proof (precedence_outcome o) as Hq;
      (destruct (precedence o) as [q | y]; cbn [bind];
       [ rewrite Hq; cbn [andb];
         destruct (prec_lt q p); cbn [bind];
         destruct (str builtin_str object_str o); cbn [bind]; exact Ho
       | destruct Hq as [-> Hy]; cbn [andb]; auto ]).
Qed.

(** X1. Rendering fails in two ways only.  [str(e)] returns exactly when no
    operator met while rendering holds a direct instance of [Expression]
    among its operands and no terminal met holds an [int] of more digits than
    the interpreter converts; otherwise it raises the [AttributeError] of the
    missing [precedence] attribute or the [ValueError] of the digit limit,
    and nothing else. *)
Theorem str_fails_in_two_ways_only (builtin_str : value -> string)
    (object_str : string) (e : expression) :
  match str builtin_str object_str e with
  | OK _ => renderable e = true
  | Raise x => renderable e = false /\ rendering_error x
  end.
Proof. apply str_outcome. Qed.

(** The digit limit at work: [Number(10**4300)] is accepted and does not
    render, alone or as an operand; [Number(10**4300 - 1)] renders. *)
Example str_digit_limit :
  Number (VInt (10 ^ 4300)%Z) = OK (Leaf CNumber (VInt (10 ^ 4300)%Z)) /\
  (exists msg, str (fun _ => "") "" (Leaf CNumber (VInt (10 ^ 4300)%Z))
               = Raise (ValueError msg)) /\
  (exists msg, str (fun _ => "") ""
                 (Add (Leaf CSymbol (VStr "x")) (Leaf CNumber (VInt (10 ^ 4300)%Z)))
               = Raise (ValueError msg)) /\
  renderable (Leaf CNumber (VInt (10 ^ 4300 - 1)%Z)) = true.
Proof.
  split; [reflexivity |].
  split; [eexists; vm_compute; reflexivity |].
  split; [eexists; vm_compute; reflexivity |].
  vm_compute. reflexivity.
Qed.

(** X2. Operands of equal precedence are never parenthesised, so rendering
    does not tell a right-nested pair of operators of one precedence from the
    left-nested pair: [c1(x, c2(y, z))] and [c2(c1(x, y), z)] have the same
    text (or raise alike), whatever [x], [y] and [z] are. *)
Theorem str_equal_precedence_ambiguous (builtin_str : value -> string)
    (object_str : string) (c1 c2 : node_cls) (p : prec) (x y z : expression) :
  node_precedence c1 = Some p ->
  node_precedence c2 = Some p ->
  str builtin_str object_str (Node c1 [x; Node c2 [y; z]])
  = str builtin_str object_str (Node c2 [Node c1 [x; y]; z]).
Proof.
  intros H1 H2.
  assert (exists s1, symbol c1 = Some s1) as [s1 Hs1]
    by (destruct c1; try discriminate H1; eexists; reflexivity).
  assert (exists s2, symbol c2 = Some s2) as [s2 Hs2]
    by (destruct c2; try discriminate H2; eexists; reflexivity).
  assert (prec_lt p p = false) as Hpp
    by (destruct p; [apply Z.ltb_irrefl | reflexivity]).
  cbn [str mapM]. rewrite Hs1, Hs2, H1, H2.
  cbn [mapM]. unfold format_operand at 2 3. cbn [precedence].
  rewrite H1, H2. cbn [bind]. rewrite Hpp.
  cbn [str mapM]. rewrite Hs1, Hs2, H1, H2. cbn [mapM].
  set (fx := format_operand (str builtin_str object_str) p x).
  set (fy := format_operand (str builtin_str object_str) p y).
  set (fz := format_operand (str builtin_str object_str) p z).
  destruct fx as [sx | ?]; [| reflexivity].
  destruct fy as [sy | ?]; [| reflexivity].
  destruct fz as [sz | ?]; [| reflexivity].
  cbn [bind join]. rewrite !append_assoc. reflexivity.
Qed.

Lemma str_equal_precedence_ambiguous_witness :
  node_precedence CSub = Some (Finite 1%Z) /\
  node_precedence CAdd = Some (Finite 1%Z) /\
  str (fun _ => "") ""
    (Sub (Leaf CSymbol (VStr "a")) (Add (Leaf CSymbol (VStr "b")) (Leaf CSymbol (VStr "c"))))
  = str (fun _ => "") ""
      (Add (Sub (Leaf CSymbol (VStr "a")) (Leaf CSymbol (VStr "b"))) (Leaf CSymbol (VStr "c"))).
Proof.
  split; [reflexivity |]. split; [reflexivity |].
  exact (str_equal_precedence_ambiguous (fun _ => "") "" CSub CAdd (Finite 1%Z)
           (Leaf CSymbol (VStr "a")) (Leaf CSymbol (VStr "b")) (Leaf CSymbol (VStr "c"))
           eq_refl eq_refl).
Defined.

(** ** Differentiation of operand tuples of any length *)

(** X3. The rules read [operands[0]] and [operands[1]] only.  For each of
    the five operators: operands after the second are ignored; with no
    operand the call raises [IndexError]; with one operand [Pow] raises
    [IndexError] at once, and the other four differentiate that operand
    first, so that its exception, if any, comes before the [IndexError]. *)
Theorem differentiate_reads_two_operands (c : node_cls) (var : string) :
  rule_operator c = true ->
  (forall l r rest, differentiate (Node c (l :: r :: rest)) var
                    = differentiate (Node c [l; r]) var) /\
  differentiate (Node c []) var = Raise (IndexError "tuple index out of range") /\
  (forall l,
      differentiate (Node c [l]) var
      = if recursive_rule c
        then match differentiate l var with
             | OK _ => Raise (IndexError "tuple index out of range")
             | Raise x => Raise x
             end
        else Raise (IndexError "tuple index out of range")).
Proof.
  intros Hc. destruct c; try discriminate Hc; clear Hc;
    (split; [reflexivity |]); (split; [reflexivity |]);
    intros l; cbn; try reflexivity;
    destruct (differentiate l var); reflexivity.
Qed.

Lemma differentiate_reads_two_operands_witness :
  rule_operator CMul = true /\
  differentiate (Node CMul [Leaf CSymbol (VStr "x"); Leaf CSymbol (VStr "y");
                            Node CExpression []]) "x"
  = differentiate (Node CMul [Leaf CSymbol (VStr "x"); Leaf CSymbol (VStr "y")]) "x".
Proof.
  split; [reflexivity |].
  exact (proj1 (differentiate_reads_two_operands CMul "x" eq_refl)
           (Leaf CSymbol (VStr "x")) (Leaf CSymbol (VStr "y")) [Node CExpression []]).
Defined.

(** X4. [differentiate] raises nothing but the [NotImplementedError] of
    the default implementation, naming a class of the module, and the
    [IndexError] of a missing operand: no [TypeError] comes from the
    [Number(0)], [Number(1)] and [Number(2)] it constructs. *)
Theorem differentiate_raises_two_kinds (e : expression) (var : string) (x : exn) :
  differentiate e var = Raise x ->
  x = IndexError "tuple index out of range" \/
  exists n, In n ["Expression"; "Operator"; "Terminal"] /\
            x = NotImplementedError ("Cannot differentiate " +:+ n).
Proof.
  revert x. induction e as [c v | c operands IH] using expr_nested_ind; intros x H.
  - destruct c; simpl in H.
    + injection H as <-. right. exists "Terminal". split; [| reflexivity].
      right; right; left; reflexivity.
    + discriminate H.
    + destruct (value_eq_str v var); discriminate H.
  - destruct c;
      try (injection H as <-; right; eexists; split; [| reflexivity];
           simpl; tauto);
      destruct operands as [| l [| r rest]];
      simpl in H; try discriminate H;
      try (injection H as <-; left; reflexivity);
      repeat match goal with
             | IH : Forall _ (_ :: _) |- _ => inversion IH; subst; clear IH
             end;
      (destruct (differentiate l var) eqn:El; simpl in H;
       [| injection H as <-; eauto]);
      try (injection H as <-; left; reflexivity);
      (destruct (differentiate r var) eqn:Er; simpl in H;
       [discriminate H | injection H as <-; eauto]).
Qed.

Lemma differentiate_raises_two_kinds_witness :
  differentiate (Node CSub [Leaf CSymbol (VStr "x")]) "x"
  = Raise (IndexError "tuple index out of range") /\
  (IndexError "tuple index out of range" = IndexError "tuple index out of range" \/
   exists n, In n ["Expression"; "Operator"; "Terminal"] /\
             IndexError "tuple index out of range"
             = NotImplementedError ("Cannot differentiate " +:+ n)).
Proof.
  split; [reflexivity |].
  exact (differentiate_raises_two_kinds (Node CSub [Leaf CSymbol (VStr "x")]) "x"
           (IndexError "tuple index out of range") eq_refl).
Defined.

(** ** Well-formed expressions are closed under the operations *)

Lemma derivative_well_formed var e :
  well_formed e = true -> well_formed (derivative var e) = true.
Proof.
  induction e as [c v | c operands IH] using expr_nested_ind; intros Hw.
  - destruct c; simpl in *; try discriminate Hw; reflexivity.
  - destruct c; simpl in Hw; try discriminate Hw;
      destruct operands as [| l [| r [| ? ?]]]; try discriminate Hw;
      apply andb_prop in Hw as [Hl Hr];
      inversion IH as [| ? ? IHl IH']; subst;
      inversion IH' as [| ? ? IHr _]; subst;
      simpl; rewrite ?Hl, ?Hr, ?(IHl Hl), ?(IHr Hr); reflexivity.
Qed.

Lemma well_formed_has_precedence e : well_formed e = true -> has_precedence e = true.
Proof. destruct e as [? ? | [] ?]; simpl; intros H; try discriminate H; reflexivity. Qed.

Lemma derivative_renderable var e :
  well_formed e = true -> renderable e = true -> renderable (derivative var e) = true.
Proof.
  induction e as [c v | c operands IH] using expr_nested_ind; intros Hw Hr.
  - destruct c; simpl in Hw; try discriminate Hw.
    + vm_compute. reflexivity.
    + cbn [derivative]. destruct (value_eq_str v var); vm_compute; reflexivity.
  - assert (renderable (Leaf CNumber (VInt 1%Z)) = true) as H1 by (vm_compute; reflexivity).
    assert (renderable (Leaf CNumber (VInt 2%Z)) = true) as H2 by (vm_compute; reflexivity).
    destruct c; simpl in Hw; try discriminate Hw;
      destruct operands as [| l [| r [| ? ?]]]; try discriminate Hw;
      apply andb_prop in Hw as [Hl Hr'];
      inversion IH as [| ? ? IHl IH']; subst;
      inversion IH' as [| ? ? IHr _]; subst;
      cbn [renderable node_precedence forallb] in Hr;
      rewrite !andb_true_iff in Hr;
      destruct Hr as ((_ & Hrl) & (_ & Hrr) & _);
      pose proof (well_formed_has_precedence l Hl) as Hpl;
      pose proof (well_formed_has_precedence r Hr') as Hpr;
      pose proof (well_formed_has_precedence _ (derivative_well_formed var l Hl)) as Hpdl;
      pose proof (well_formed_has_precedence _ (derivative_well_formed var r Hr')) as Hpdr;
      pose proof (IHl Hl Hrl) as Hdl; pose proof (IHr Hr' Hrr) as Hdr;
      cbn [derivative Add Sub Mul Div Pow renderable node_precedence forallb
           has_precedence];
      fold (renderable (Leaf CNumber (VInt 1%Z)));
      fold (renderable (Leaf CNumber (VInt 2%Z)));
      rewrite ?Hpl, ?Hpr, ?Hpdl, ?Hpdr, ?Hdl, ?Hdr, ?Hrl, ?Hrr, ?H1, ?H2;
      reflexivity.
Qed.

(** X5. The derivative of a well-formed expression is a well-formed
    expression: [differentiate] returns on it again, with respect to any
    variable, and it renders whenever the expression itself renders. *)
Theorem differentiate_keeps_well_formed (builtin_str : value -> string)
    (object_str : string) (e : expression) (var var' : string) :
  well_formed e = true ->
  exists d d',
    differentiate e var = OK d /\
    well_formed d = true /\
    differentiate d var' = OK d' /\
    well_formed d' = true /\
    ((exists s, str builtin_str object_str e = OK s) ->
     exists s', str builtin_str object_str d = OK s').
Proof.
  intros Hw.
  pose proof (derivative_well_formed var e Hw) as Hd.
  pose proof (derivative_well_formed var' _ Hd) as Hd'.
  exists (derivative var e), (derivative var' (derivative var e)).
  split; [apply differentiate_well_formed, Hw |].
  split; [exact Hd |].
  split; [apply differentiate_well_formed, Hd |].
  split; [exact Hd' |].
  intros [s Hs].
  pose proof (str_outcome builtin_str object_str e) as He. rewrite Hs in He.
  pose proof (derivative_renderable var e Hw He) as Hrd.
  pose proof (str_outcome builtin_str object_str (derivative var e)) as Ho.
  destruct (str builtin_str object_str (derivative var e)) as [s' | x];
    [exists s'; reflexivity |].
  destruct Ho as [Ho _]. congruence.
Qed.

Lemma differentiate_keeps_well_formed_witness :
  let e := Div (Leaf CSymbol (VStr "x")) (Pow (Leaf CSymbol (VStr "y")) (Leaf CNumber (VInt 2%Z))) in
  well_formed e = true /\
  exists d d', differentiate e "x" = OK d /\ differentiate d "y" = OK d'.
Proof.
  split; [reflexivity |].
  destruct (differentiate_keeps_well_formed (fun _ => "") ""
              (Div (Leaf CSymbol (VStr "x"))
                   (Pow (Leaf CSymbol (VStr "y")) (Leaf CNumber (VInt 2%Z))))
              "x" "y" eq_refl)
    as (d & d' & H1 & _ & H2 & _).
  exists d, d'. auto.
Defined.

(** X6. The infix forms keep expressions well-formed: applied to two usable
    operands, numeric literals or well-formed expressions of which at least
    one is an expression, each form returns a well-formed expression of its
    class. *)
Theorem infix_keeps_well_formed (f : pyobj -> pyobj -> option (result expression))
    (c : node_cls) (a b : pyobj) :
  In (f, c) infix_forms ->
  usable a = true -> usable b = true ->
  is_expression a || is_expression b = true ->
  exists l r,
    f a b = Some (OK (Node c [l; r])) /\
    as_expression a = OK l /\ as_expression b = OK r /\
    well_formed (Node c [l; r]) = true.
Proof.
  intros Hf Ha Hb Hexpr.
  assert (forall o, usable o = true ->
                    exists t, as_expression o = OK t /\ well_formed t = true) as Hconv.
  { intros [v | t] Ho; simpl in *.
    - exists (Leaf CNumber v). split; [apply Number_numeric, Ho | exact Ho].
    - exists t. auto. }
  destruct (Hconv a Ha) as (l & Hl & Hwl).
  destruct (Hconv b Hb) as (r & Hr & Hwr).
  exists l, r.
  assert (well_formed (Node c [l; r]) = true) as Hw.
  { simpl in Hf.
    repeat (destruct Hf as [[= <- <-] | Hf]; [simpl; rewrite Hwl, Hwr; reflexivity |]).
    destruct Hf. }
  split; [| auto].
  simpl in Hf.
  repeat (destruct Hf as [[= <- <-] | Hf];
          [ destruct a as [va | ea], b as [vb | eb]; try discriminate Hexpr;
            simpl in *;
            unfold infix_add, infix_sub, infix_mul, infix_truediv, infix_pow,
              binary_op, __add__, __radd__, __sub__, __rsub__, __mul__, __rmul__,
              __truediv__, __rtruediv__, __pow__, __rpow__, as_expression;
            rewrite ?Hl, ?Hr; simpl;
            repeat match goal with
                   | H : OK _ = OK _ |- _ => injection H as <-
                   end;
            reflexivity |]).
  destruct Hf.
Qed.

Lemma infix_keeps_well_formed_witness :
  let x := PExpr (Leaf CSymbol (VStr "x")) in
  let k := PVal (VFloat (S754_finite false 3 (-1))) in
  In (infix_truediv, CDiv) infix_forms /\
  usable k = true /\ usable x = true /\
  is_expression k || is_expression x = true /\
  exists l r, infix_truediv k x = Some (OK (Node CDiv [l; r])) /\
              well_formed (Node CDiv [l; r]) = true.
Proof.
  split; [right; right; right; left; reflexivity |].
  split; [reflexivity |]. split; [reflexivity |]. split; [reflexivity |].
  destruct (infix_keeps_well_formed infix_truediv CDiv
              (PVal (VFloat (S754_finite false 3 (-1))))
              (PExpr (Leaf CSymbol (VStr "x")))
              (or_intror (or_intror (or_intror (or_introl eq_refl))))
              eq_refl eq_refl eq_refl)
    as (l & r & H & _ & _ & Hw).
  exists l, r. auto.
Defined.

(** X7. A literal that [Number] rejects cannot be an operand: whichever of
    the five operators is used and on whichever side the literal stands, the
    infix form raises the [TypeError] of [Number] and builds nothing. *)
Theorem infix_rejects_non_numeric (f : pyobj -> pyobj -> option (result expression))
    (c : node_cls) (e : expression) (k : value) :
  In (f, c) infix_forms ->
  numeric k = false ->
  f (PExpr e) (PVal k)
  = Some (Raise (TypeError "Number value must be an int or float.")) /\
  f (PVal k) (PExpr e)
  = Some (Raise (TypeError "Number value must be an int or float.")).
Proof.
  intros Hf Hk. simpl in Hf.
  repeat (destruct Hf as [[= <- <-] | Hf];
          [ unfold infix_add, infix_sub, infix_mul, infix_truediv, infix_pow,
              binary_op, __add__, __radd__, __sub__, __rsub__, __mul__, __rmul__,
              __truediv__, __rtruediv__, __pow__, __rpow__, as_expression;
            rewrite (Number_not_numeric k Hk); split; reflexivity |]).
  destruct Hf.
Qed.

Lemma infix_rejects_non_numeric_witness :
  In (infix_mul, CMul) infix_forms /\ numeric (VStr "2") = false /\
  infix_mul (PVal (VStr "2")) (PExpr (Leaf CSymbol (VStr "x")))
  = Some (Raise (TypeError "Number value must be an int or float.")).
Proof.
  split; [right; right; left; reflexivity |]. split; [reflexivity |].
  exact (proj2 (infix_rejects_non_numeric infix_mul CMul (Leaf CSymbol (VStr "x")) (VStr "2")
                  (or_intror (or_intror (or_introl eq_refl))) eq_refl)).
Defined.

(** ** The visitor on expressions without sharing *)

Lemma loop_step_deterministic {R W} (h : Store.store) (fn : nat -> list R -> W -> R * W)
    (st a b : @Store.frame R W) :
  loop_step h fn st a -> loop_step h fn st b -> a = b.
Proof.
  intros Ha Hb.
  destruct Ha as [e stk ob v w He Hf | e stk ob v w rs r w' He Hf Hrs Hfn].
  - inversion Hb as [e' stk' ob' v' w0 He' Hf' | e' stk' ob' v' w0 rs r w' He' Hf' Hrs Hfn];
      subst.
    + assert (ob' = ob) as -> by congruence. reflexivity.
    + assert (ob' = ob) as -> by congruence. contradiction.
  - inversion Hb as [e' stk' ob' v' w0 He' Hf' | e' stk' ob' v' w0 rs' r' w'' He' Hf' Hrs' Hfn'];
      subst.
    + assert (ob' = ob) as -> by congruence. contradiction.
    + assert (ob' = ob) as -> by congruence.
      assert (rs' = rs) as ->.
      { clear -Hrs Hrs'. revert rs' Hrs'.
        induction Hrs as [| o x os xs Hx _ IH]; intros rs' Hrs'.
        - inversion Hrs'. reflexivity.
        - inversion Hrs' as [| ? y ? ys Hy Hys]; subst.
          f_equal; [congruence | apply IH, Hys]. }
      congruence.
Qed.

Lemma steps_final_unique {R W} (h : Store.store) (fn : nat -> list R -> W -> R * W)
    (st a b : @Store.frame R W) :
  rtc (loop_step h fn) st a -> Store.stack a = [] ->
  rtc (loop_step h fn) st b -> Store.stack b = [] ->
  a = b.
Proof.
  intros Ha Hea. revert b. induction Ha as [st | st st1 a Hs _ IH]; intros b Hb Heb.
  - destruct Hb as [| st0 st1 b Hs _]; [reflexivity |].
    inversion Hs; subst; simpl in Hea; discriminate Hea.
  - destruct Hb as [| st0 st1' b Hs' Hb];
      [inversion Hs; subst; simpl in Heb; discriminate Heb |].
    rewrite (loop_step_deterministic h fn _ _ _ Hs' Hs) in Hb.
    apply (IH Hea b Hb Heb).
Qed.

Lemma while_stack_steps {R W} (h : Store.store) (fn : nat -> list R -> W -> R * W) fuel :
  forall st st' : @Store.frame R W,
    Store.while_stack h fn fuel st = Some (OK st') ->
    rtc (loop_step h fn) st st' /\ Store.stack st' = [].
Proof.
  induction fuel as [| fuel IH]; intros st st' Hrun; simpl in Hrun.
  - destruct (Store.stack st) eqn:Hstk; [| discriminate Hrun].
    injection Hrun as <-. split; [constructor | exact Hstk].
  - destruct (Store.stack st) as [| e stk] eqn:Hstk.
    + injection Hrun as <-. split; [constructor | exact Hstk].
    + destruct (Store.iteration h fn st) as [[st1 | ?] |] eqn:Hit;
        simpl in Hrun; try discriminate Hrun.
      destruct (IH st1 st' Hrun) as [Hsteps Hnil].
      split; [| exact Hnil].
      eapply rtc_l; [| exact Hsteps].
      apply (iteration_step h fn st e stk st1 Hstk Hit).
Qed.

Lemma postorder_rl_self n (h : Store.store) e ob :
  h !! e = Some ob -> In e (postorder_rl (S n) h e).
Proof. intros He. simpl. rewrite He. apply in_or_app. right. left. reflexivity. Qed.

Lemma filter_all {A} (p : A -> bool) l :
  (forall a, In a l -> p a = true) -> List.filter p l = l.
Proof.
  induction l as [| a l IH]; intros H; simpl; [reflexivity |].
  rewrite (H a (or_introl eq_refl)). f_equal. apply IH. intros b Hb. apply H. right. exact Hb.
Qed.

Lemma filter_none {A} (p : A -> bool) l :
  (forall a, In a l -> p a = false) -> List.filter p l = [].
Proof.
  induction l as [| a l IH]; intros H; simpl; [reflexivity |].
  rewrite (H a (or_introl eq_refl)). apply IH. intros b Hb. apply H. right. exact Hb.
Qed.

Lemma visited_results {R} (v : gmap nat R) ops :
  (forall o, In o ops -> is_Some (v !! o)) ->
  exists rs, Forall2 (fun o x => v !! o = Some x) ops rs.
Proof.
  induction ops as [| o ops IH]; intros H.
  - exists []. constructor.
  - destruct (H o (or_introl eq_refl)) as [x Hx].
    destruct IH as [rs Hrs]; [intros o' Ho'; apply H; right; exact Ho' |].
    exists (x :: rs). constructor; assumption.
Qed.

Section Unshared.
Context {R W : Type}.
Variable h : Store.store.
Variable fn : nat -> list R -> W -> R * W.
Hypothesis Hb : Store.bottom_up h = true.

Lemma runs_through_list (P : nat -> list nat) cs :
  Forall (fun c => runs_through h fn P [c]) cs -> runs_through h fn P cs.
Proof.
  induction 1 as [| c cs Hc _ IH]; intros stk v w j Hnd Hun.
  - exists v, w, []. rewrite app_nil_r. simpl.
    split; [constructor |]. split; [reflexivity |]. intros d. tauto.
  - simpl in Hnd, Hun. apply NoDup_app in Hnd as (Hndc & Hdisj & Hndcs).
    destruct (Hc (cs ++ stk) v w j) as (v1 & w1 & j1 & Hrun1 & Hj1 & Hv1).
    { simpl. rewrite app_nil_r. exact Hndc. }
    { simpl. rewrite app_nil_r. intros d Hd. apply Hun, in_or_app. left. exact Hd. }
    simpl in Hj1, Hv1. rewrite app_nil_r in Hj1, Hv1.
    destruct (IH stk v1 w1 (j ++ j1)) as (v2 & w2 & j2 & Hrun2 & Hj2 & Hv2).
    { exact Hndcs. }
    { intros d Hd. destruct (v1 !! d) as [x |] eqn:Hx; [| reflexivity].
      exfalso. destruct (proj1 (Hv1 d) (ex_intro _ x Hx)) as [[y Hy] | Hin].
      - rewrite (Hun d) in Hy; [discriminate Hy |]. apply in_or_app. right. exact Hd.
      - apply (Hdisj d); apply list_elem_of_In; assumption. }
    exists v2, w2, (j1 ++ j2). split; [| split].
    + eapply rtc_trans; [exact Hrun1 |]. rewrite app_assoc. exact Hrun2.
    + simpl. rewrite map_app, Hj1, Hj2. reflexivity.
    + intros d. rewrite Hv2, Hv1. simpl. rewrite in_app_iff. tauto.
Qed.

Lemma runs_through_node n :
  forall e, (e < n)%nat -> (e < List.length h)%nat ->
            runs_through h fn (postorder_rl n h) [e].
Proof using Hb.
  induction n as [| n IH]; intros e Hn He; [lia |].
  intros stk v w j Hnd Hun. simpl in Hnd, Hun. rewrite app_nil_r in Hnd, Hun.
  destruct (lookup_lt_is_Some_2 h e He) as [ob Hob]. rewrite Hob in Hnd, Hun.
  set (ops := Store.operands ob) in *.
  assert (forall o, In o ops -> (o < e)%nat) as Hlt.
  { intros o Ho. apply (operand_lt h o e Hb). exists ob. auto. }
  assert (forall o, In o ops -> In o (concat (map (postorder_rl n h) (rev ops)))) as Hself.
  { intros o Ho. apply in_concat. exists (postorder_rl n h o). split.
    - apply in_map, in_rev. rewrite rev_involutive. exact Ho.
    - destruct n as [| n]; [specialize (Hlt o Ho); lia |].
      assert (o < List.length h)%nat as Hoh by (specialize (Hlt o Ho); lia).
      destruct (lookup_lt_is_Some_2 h o Hoh) as [ob' Hob'].
      apply (postorder_rl_self n h o ob' Hob'). }
  apply NoDup_app in Hnd as (Hndc & _ & _).
  assert (exists v1 w1 j1,
             rtc (loop_step h (traced fn))
                 (Store.Frame (e :: stk) v (w, j))
                 (Store.Frame (e :: stk) v1 (w1, j ++ j1)) /\
             map callee j1 = concat (map (postorder_rl n h) (rev ops)) /\
             (forall d, is_Some (v1 !! d) <->
                        is_Some (v !! d) \/
                        In d (concat (map (postorder_rl n h) (rev ops)))))
    as (v1 & w1 & j1 & Hrun1 & Hj1 & Hv1).
  { destruct ops as [| o ops'] eqn:Hops.
    - exists v, w, []. rewrite app_nil_r. simpl.
      split; [constructor |]. split; [reflexivity |]. intros d. tauto.
    - rewrite <- Hops in *.
      assert (List.filter (Store.not_in v) ops = ops) as Hall.
      { apply filter_all. intros c Hc. unfold Store.not_in.
        rewrite (Hun c); [reflexivity |]. apply in_or_app. left. apply Hself, Hc. }
      destruct (runs_through_list (postorder_rl n h) (rev ops)) with
        (stk := e :: stk) (v := v) (w := w) (j := j)
        as (v1 & w1 & j1 & Hrun1 & Hj1 & Hv1).
      { apply Forall_forall. intros c Hc. apply list_elem_of_In, in_rev in Hc.
        specialize (Hlt c Hc). apply IH; lia. }
      { exact Hndc. }
      { intros d Hd. apply Hun, in_or_app. left. exact Hd. }
      exists v1, w1, j1. split; [| auto].
      eapply rtc_l; [| exact Hrun1].
      pose proof (step_push h (traced fn) e stk ob v (w, j) Hob) as Hpush.
      fold ops in Hpush. rewrite Hall in Hpush. apply Hpush.
      rewrite Hops. discriminate. }
  assert (forall o, In o ops -> is_Some (v1 !! o)) as Hdone.
  { intros o Ho. apply Hv1. right. apply Hself, Ho. }
  destruct (visited_results v1 ops Hdone) as [rs Hrs].
  destruct (fn e rs w1) as [r w2] eqn:Hfn.
  exists (<[e := r]> v1), w2, (j1 ++ [(e, rs, r)]).
  assert (concat (map (postorder_rl (S n) h) [e])
          = concat (map (postorder_rl n h) (rev ops)) ++ [e]) as ->
    by (simpl; rewrite Hob, app_nil_r; reflexivity).
  split; [| split].
  - eapply rtc_trans; [exact Hrun1 |]. eapply rtc_l; [| constructor].
    rewrite app_assoc.
    apply (step_visit h (traced fn) e stk ob v1 (w1, j ++ j1) rs r).
    + exact Hob.
    + apply filter_none. intros o Ho. unfold Store.not_in.
      destruct (Hdone o Ho) as [x ->]. reflexivity.
    + exact Hrs.
    + unfold traced. simpl. rewrite Hfn. reflexivity.
  - rewrite map_app, Hj1. reflexivity.
  - intros d. rewrite in_app_iff. simpl. destruct (decide (d = e)) as [-> | Hne].
    + rewrite lookup_insert_eq. split; [intros _; right; right; left; reflexivity | eauto].
    + rewrite lookup_insert_ne by congruence. rewrite Hv1.
      split; [tauto |]. intros [Hd | [Hd | [Hd | []]]]; [tauto | tauto | congruence].
Qed.
End Unshared.

(** X8. On an expression without sharing, where no object occurs twice in
    the unfolding of the expression, [postvisitor] invokes [fn] exactly once
    on every object, in postorder with the operands of each object taken from
    the last to the first: the journal of invocations is that list. *)
Theorem postvisitor_unshared_order {R W} (h : Store.store)
    (fn : nat -> list R -> W -> R * W) (root : nat) (w : W) (fuel : nat) :
  Store.bottom_up h = true ->
  (root < List.length h)%nat ->
  (bound h root < fuel)%nat ->
  NoDup (postorder_rl (S root) h root) ->
  exists r w' journal,
    Store.postvisitor h (traced fn) fuel root (w, []) = Some (OK (r, (w', journal))) /\
    map callee journal = postorder_rl (S root) h root /\
    NoDup (map callee journal).
Proof.
  intros Hb Hroot Hfuel Hnd.
  destruct (traced_run h fn Hb root w fuel Hroot Hfuel)
    as (st & Hrun & Hnil & _ & _ & _ & _ & Hlast).
  destruct (Hlast Hnil) as (before & args & r & w0 & Hj & _ & Hr).
  destruct (while_stack_steps h (traced fn) fuel _ _ Hrun) as [Hsteps _].
  destruct (runs_through_node h fn Hb (S root) root (Nat.lt_succ_diag_r root) Hroot
              [] ∅ w []) as (v' & w' & j' & Hbig & Hj' & _).
  { simpl. rewrite app_nil_r. exact Hnd. }
  { intros d _. apply lookup_empty. }
  pose proof (steps_final_unique h (traced fn) _ _ _ Hsteps Hnil Hbig eq_refl) as ->.
  simpl in *. exists r, w', j'.
  split; [| split].
  - unfold Store.postvisitor. rewrite Hrun. simpl.
    unfold Store.lookup_visited. rewrite Hr. reflexivity.
  - rewrite Hj'. simpl. rewrite app_nil_r. reflexivity.
  - rewrite Hj'. simpl. rewrite app_nil_r. exact Hnd.
Qed.

Lemma postvisitor_unshared_order_witness :
  let h := [Store.OLeaf CSymbol (VStr "x"); Store.OLeaf CSymbol (VStr "y");
            Store.ONode CMul [0; 1]; Store.OLeaf CNumber (VInt 2%Z);
            Store.ONode CAdd [2; 3]] in
  let fn := fun (e : nat) (results : list nat) (calls : nat) =>
              (S (list_sum results), S calls) in
  Store.bottom_up h = true /\ (4 < List.length h)%nat /\ (bound h 4 < 20)%nat /\
  NoDup (postorder_rl 5 h 4) /\
  exists r w' journal,
    Store.postvisitor h (traced fn) 20 4 (0, []) = Some (OK (r, (w', journal))) /\
    map callee journal = [3; 1; 0; 2; 4].
Proof.
  split; [reflexivity |]. split; [simpl; lia |]. split; [vm_compute; lia |].
  split; [apply (bool_decide_unpack _); vm_compute; exact I |].
  destruct (postvisitor_unshared_order
              [Store.OLeaf CSymbol (VStr "x"); Store.OLeaf CSymbol (VStr "y");
               Store.ONode CMul [0; 1]; Store.OLeaf CNumber (VInt 2%Z);
               Store.ONode CAdd [2; 3]]
              (fun (e : nat) (results : list nat) (calls : nat) =>
                 (S (list_sum results), S calls))
              4 0 20 eq_refl ltac:(simpl; lia) ltac:(vm_compute; lia)
              ltac:(apply (bool_decide_unpack _); vm_compute; exact I))
    as (r & w' & journal & Hrun & Hj & _).
  exists r, w', journal. split; [exact Hrun | exact Hj].
Defined.

(** ** Differentiation of shared operands *)

(** X11. [differentiate] keeps no record of what it has differentiated.
    When both operands of [Add], [Sub], [Mul] or [Div] are one and the same
    object, that object is differentiated twice: the call returns, and its
    result holds two different new objects that stand for the same
    derivative tree. *)
Theorem differentiate_never_reuses (fuel : nat) (h : Store.store) (e o : nat)
    (c : node_cls) (t : expression) (var : string) :
  Store.bottom_up h = true ->
  h !! e = Some (Store.ONode c [o; o]) ->
  recursive_rule c = true ->
  denotes h o t ->
  well_formed t = true ->
  (e < fuel)%nat ->
  exists d h' dl dr,
    Store.differentiate fuel e var h = Some (OK (d, h')) /\
    dl <> dr /\
    (List.length h <= dl)%nat /\ (List.length h <= dr)%nat /\
    denotes h' dl (derivative var t) /\
    denotes h' dr (derivative var t) /\
    match c with
    | CAdd | CSub => h' !! d = Some (Store.ONode c [dl; dr])
    | CMul =>
        exists a b,
          h' !! d = Some (Store.ONode CAdd [a; b]) /\
          h' !! a = Some (Store.ONode CMul [dl; o]) /\
          h' !! b = Some (Store.ONode CMul [o; dr])
    | CDiv =>
        exists num den a b,
          h' !! d = Some (Store.ONode CDiv [num; den]) /\
          h' !! num = Some (Store.ONode CSub [a; b]) /\
          h' !! a = Some (Store.ONode CMul [o; dl]) /\
          h' !! b = Some (Store.ONode CMul [o; dr])
    | _ => True
    end.
Proof.
  intros Hb He Hc Hden Hw Hfuel.
  destruct fuel as [| fuel]; [lia |].
  assert (o < fuel)%nat as Ho.
  { assert (o < e)%nat; [| lia]. apply (operand_lt h o e Hb).
    eexists. split; [exact He | left; reflexivity]. }
  pose proof (differentiate_refines fuel h o t var Hb Hden Ho) as H1.
  rewrite (differentiate_well_formed var t Hw) in H1.
  destruct H1 as (dl & h1 & E1 & Hext1 & Hb1 & Hlen1 & Hdl).
  pose proof (differentiate_refines fuel h1 o t var Hb1
                (denotes_extends h h1 o t Hext1 Hden) Ho) as H2.
  rewrite (differentiate_well_formed var t Hw) in H2.
  destruct H2 as (dr & h2 & E2 & Hext2 & Hb2 & Hlen2 & Hdr).
  pose proof (denotes_lt h1 dl _ Hdl) as Hdl_lt.
  pose proof (extends_length h h1 Hext1) as Hlen_h1.
  destruct c; try discriminate Hc;
    eexists _, _, dl, dr;
    (split;
     [ cbn [Store.differentiate]; rewrite sbind_unfold; unfold Store.deref;
       rewrite He; exec; rewrite E1; exec; rewrite E2; exec; reflexivity |]);
    (split; [lia |]); (split; [exact Hlen1 |]); (split; [lia |]);
    (split; [solve_denotes |]); (split; [solve_denotes |]).
  - solve_lookup.
  - solve_lookup.
  - do 2 eexists. repeat (split; [solve_lookup |]). solve_lookup.
  - do 4 eexists. repeat (split; [solve_lookup |]). solve_lookup.
Qed.

Lemma differentiate_never_reuses_witness :
  let h := [Store.OLeaf CSymbol (VStr "x"); Store.ONode CMul [0; 0]] in
  Store.bottom_up h = true /\
  h !! 1 = Some (Store.ONode CMul [0; 0]) /\
  recursive_rule CMul = true /\
  denotes h 0 (Leaf CSymbol (VStr "x")) /\
  well_formed (Leaf CSymbol (VStr "x")) = true /\
  (1 < 2)%nat /\
  exists (d : nat) (h' : Store.store) (dl dr : nat),
    Store.differentiate 2 1 "x" h = Some (OK (d, h')) /\ dl <> dr.
Proof.
  split; [reflexivity |]. split; [reflexivity |]. split; [reflexivity |].
  split; [exists 1; reflexivity |]. split; [reflexivity |]. split; [lia |].
  destruct (differentiate_never_reuses 2
              [Store.OLeaf CSymbol (VStr "x"); Store.ONode CMul [0; 0]]
              1 0 CMul (Leaf CSymbol (VStr "x")) "x"
              eq_refl eq_refl eq_refl (ex_intro _ 1 eq_refl) eq_refl ltac:(lia))
    as (d & h' & dl & dr & Hrun & Hne & _).
  exists d, h', dl, dr. split; [exact Hrun | exact Hne].
Defined.

Lemma differentiate_store_total_witness :
  let h := [Store.OLeaf CSymbol (VStr "x"); Store.ONode CMul [0; 0];
            Store.ONode CDiv [1; 0]] in
  let t := Div (Mul (Leaf CSymbol (VStr "x")) (Leaf CSymbol (VStr "x")))
               (Leaf CSymbol (VStr "x")) in
  Store.bottom_up h = true /\ denotes h 2 t /\ well_formed t = true /\ (2 < 3)%nat /\
  exists d h',
    Store.differentiate 3 2 "x" h = Some (OK (d, h')) /\
    denotes h' d (derivative "x" t).
Proof.
  split; [reflexivity |]. split; [exists 3; reflexivity |].
  split; [reflexivity |]. split; [lia |].
  destruct (differentiate_store_total 3
              [Store.OLeaf CSymbol (VStr "x"); Store.ONode CMul [0; 0];
               Store.ONode CDiv [1; 0]]
              2
              (Div (Mul (Leaf CSymbol (VStr "x")) (Leaf CSymbol (VStr "x")))
                   (Leaf CSymbol (VStr "x")))
              "x" eq_refl (ex_intro _ 3 eq_refl) eq_refl ltac:(lia))
    as (d & h' & Hrun & _ & _ & Hden).
  exists d, h'. split; [exact Hrun | exact Hden].
Defined.

Lemma postvisitor_stateless_fold_witness :
  let h := [Store.OLeaf CSymbol (VStr "x"); Store.OLeaf CSymbol (VStr "y");
            Store.ONode CMul [0; 1]; Store.ONode CAdd [0; 2]] in
  let f := fun (_ : nat) (results : list nat) => S (list_sum results) in
  Store.bottom_up h = true /\ (3 < List.length h)%nat /\ (bound h 3 < 20)%nat /\
  exists r,
    fold f 4 h 3 = Some r /\
    Store.postvisitor h (stateless f) 20 3 tt = Some (OK (r, tt)).
Proof.
  split; [reflexivity |]. split; [simpl; lia |]. split; [vm_compute; lia |].
  exact (postvisitor_stateless_fold
           [Store.OLeaf CSymbol (VStr "x"); Store.OLeaf CSymbol (VStr "y");
            Store.ONode CMul [0; 1]; Store.ONode CAdd [0; 2]]
           (fun (_ : nat) (results : list nat) => S (list_sum results))
           3 20 eq_refl ltac:(simpl; lia) ltac:(vm_compute; lia)).
Defined.
